(** * Block-aware text selection (Okular core/blockselection.cpp)

    A shallow embedding of [BlockSelectionHelper] and of the few
    collaborators it calls, followed by the properties of the
    natural-language specification stated over that embedding.

    Conventions of the embedding.
    - Coordinates are C++ [double]s in the normalized page space.  They are
      modelled by exact rationals [Q]: every comparison and the two
      arithmetic expressions of the source (a midpoint and an absolute
      difference) are read over the rationals, so rounding, infinities and
      NaN are outside the model.
    - [readingOrder] is a C++ 32-bit [int], modelled by a [Z] meant to lie
      in [[INT_MIN, INT_MAX]].  The only arithmetic on it is
      [readingOrder + 1] in [getNextBlock]; the sum is taken in [int], so
      at [INT_MAX] it wraps around to [INT_MIN] ([wrapInt]).
    - A [const LayoutBlock *] into the block list is modelled by
      [option (nat * LayoutBlock.t)]: [None] is [nullptr], [Some (i, b)] is
      the address of element [i], whose value is [b].  Two pointers are
      equal exactly when they designate the same position. *)

From Stdlib Require Import ZArith QArith Qabs Lqa String Bool Lia Permutation Sorted.
From stdpp Require Import base list sorting.

Local Open Scope Z_scope.

(** ** Numeric helpers *)

(** [a < b] and [a <= b] on doubles, as booleans. *)
Definition Qltb (a b : Q) : bool := negb (Qle_bool b a).
Definition Qleb (a b : Q) : bool := Qle_bool a b.

Lemma Qltb_lt a b : Qltb a b = true <-> (a < b)%Q.
Proof.
  unfold Qltb. rewrite negb_true_iff, <- not_true_iff_false, Qle_bool_iff.
  split; [apply Qnot_le_lt | apply Qlt_not_le].
Qed.

Lemma Qleb_le a b : Qleb a b = true <-> (a <= b)%Q.
Proof. apply Qle_bool_iff. Qed.

(** [INT_MAX] of <climits>, for a 32-bit [int]. *)
Definition INT_MAX : Z := 2147483647.

(** [INT_MIN] of <climits>. *)
Definition INT_MIN : Z := -2147483648.

(** The values an [int] takes. *)
Definition isInt (z : Z) : Prop := INT_MIN <= z <= INT_MAX.

(** The [int] that a sum computed in [int] holds: the two's-complement
    representative of [z] in [[INT_MIN, INT_MAX]]. *)
Definition wrapInt (z : Z) : Z :=
  (z + 2147483648) mod 4294967296 - 2147483648.

(** ** Data model *)

Module NormalizedPoint.
Record t := mk { x : Q; y : Q }.
End NormalizedPoint.

Module NormalizedRect.
Record t := mk { left : Q; top : Q; right : Q; bottom : Q }.

(** Modelled from the spec: [NormalizedRect::contains(double x, double y)]
    of area.h, which is not among the sources.  "True iff point lies
    within bbox, boundaries inclusive." *)
Definition contains (r : t) (x y : Q) : bool :=
  Qleb (left r) x && Qleb x (right r) && Qleb (top r) y && Qleb y (bottom r).

(** Modelled from the spec: [NormalizedRect::center()] of area.h, the
    centroid of the rectangle. *)
Definition center (r : t) : NormalizedPoint.t :=
  NormalizedPoint.mk ((left r + right r) / 2) ((top r + bottom r) / 2).

(** Modelled from the spec: [NormalizedRect::intersects] of area.h, the
    "boundary-intersection" test: the two closed rectangles share a
    point. *)
Definition intersects (r s : t) : bool :=
  Qleb (left s) (right r) && Qleb (left r) (right s) &&
  Qleb (top s) (bottom r) && Qleb (top r) (bottom s).
End NormalizedRect.

Module LayoutBlock.
Record t := mk {
  id : string;
  page : Z;
  bbox : NormalizedRect.t;
  blockType : string;
  readingOrder : Z;
  confidence : Q
}.

(** Modelled from the spec: [LayoutBlock::contains(const NormalizedPoint &)]
    of textpage.h, which is not among the sources.  "True iff point lies
    within bbox, boundaries inclusive." *)
Definition contains (b : t) (p : NormalizedPoint.t) : bool :=
  NormalizedRect.contains (bbox b) (NormalizedPoint.x p) (NormalizedPoint.y p).

(** Modelled from the spec: [LayoutBlock::contains(const NormalizedRect &)]
    of textpage.h.  "Computes rect's centroid and tests centroid
    containment." *)
Definition containsRect (b : t) (r : NormalizedRect.t) : bool :=
  contains b (NormalizedRect.center r).
End LayoutBlock.

Module TextEntity.
Record t := mk { text : string; area : NormalizedRect.t }.
End TextEntity.

(** A pointer to an element of the block list, or [nullptr]. *)
Definition BlockPtr : Type := option (nat * LayoutBlock.t).

(** [RegularAreaRect]: a list of rectangles.  Modelled from the spec: the
    two inclusion tests of area.h used by the assembler. *)
Module RegularAreaRect.
Definition t : Type := list NormalizedRect.t.

Definition intersects (a : t) (r : NormalizedRect.t) : bool :=
  existsb (fun s => NormalizedRect.intersects s r) a.

Definition contains (a : t) (x y : Q) : bool :=
  existsb (fun s => NormalizedRect.contains s x y) a.
End RegularAreaRect.

(** ** BlockSelectionHelper: the block locator *)

Module BlockSelectionHelper.
Import LayoutBlock.

(** The first block, in iteration order, that contains the point. *)
Definition findBlockContaining (blocks : list LayoutBlock.t)
    (p : NormalizedPoint.t) : BlockPtr :=
  list_find (fun block => contains block p = true) blocks.

(** The first block whose order is [current->readingOrder + 1], the sum
    being an [int]. *)
Definition getNextBlock (blocks : list LayoutBlock.t) (current : BlockPtr)
    : BlockPtr :=
  match current with
  | None => None
  | Some (_, cur) =>
      list_find (fun block => readingOrder block = wrapInt (readingOrder cur + 1))
                blocks
  end.

(** The test of the first loop of [findBlockForCursor]: has the cursor
    "passed" this block? *)
Definition passed (p : NormalizedPoint.t) (block : LayoutBlock.t) : bool :=
  let py := NormalizedPoint.y p in
  let px := NormalizedPoint.x p in
  let bb := bbox block in
  if Qltb (NormalizedRect.bottom bb) py then true
  else if Qleb (NormalizedRect.top bb) py && Qleb py (NormalizedRect.bottom bb)
          && Qltb (NormalizedRect.right bb) px then true
  else false.

(** First loop: [bestBlock], [bestOrder] threaded through the blocks from
    position [i] on. *)
Fixpoint passedLoop (p : NormalizedPoint.t) (bs : list LayoutBlock.t)
    (i : nat) (bestBlock : BlockPtr) (bestOrder : Z) : BlockPtr :=
  match bs with
  | [] => bestBlock
  | block :: rest =>
      if passed p block && (bestOrder <? readingOrder block)
      then passedLoop p rest (S i) (Some (i, block)) (readingOrder block)
      else passedLoop p rest (S i) bestBlock bestOrder
  end.

(** Second loop: [firstBlock], [minOrder] threaded through the blocks. *)
Fixpoint firstLoop (bs : list LayoutBlock.t) (i : nat)
    (firstBlock : BlockPtr) (minOrder : Z) : BlockPtr :=
  match bs with
  | [] => firstBlock
  | block :: rest =>
      if (0 <=? readingOrder block) && (readingOrder block <? minOrder)
      then firstLoop rest (S i) (Some (i, block)) (readingOrder block)
      else firstLoop rest (S i) firstBlock minOrder
  end.

Definition findBlockForCursor (blocks : list LayoutBlock.t)
    (p : NormalizedPoint.t) : BlockPtr :=
  match findBlockContaining blocks p with
  | Some directBlock => Some directBlock
  | None =>
      match passedLoop p blocks 0 None (-1) with
      | Some bestBlock =>
          match getNextBlock blocks (Some bestBlock) with
          | Some nextBlock => Some nextBlock
          | None => Some bestBlock
          end
      | None =>
          match blocks with
          | [] => None
          | _ :: _ => firstLoop blocks 0 None INT_MAX
          end
      end
  end.

(** The blocks whose order lies in [[minOrder, maxOrder]], in iteration
    order, as pointers into [blocks]. *)
Fixpoint rangeLoop (bs : list LayoutBlock.t) (i : nat)
    (minOrder maxOrder : Z) : list BlockPtr :=
  match bs with
  | [] => []
  | block :: rest =>
      if (minOrder <=? readingOrder block) && (readingOrder block <=? maxOrder)
      then Some (i, block) :: rangeLoop rest (S i) minOrder maxOrder
      else rangeLoop rest (S i) minOrder maxOrder
  end.

Definition getBlocksInReadingOrderRange (blocks : list LayoutBlock.t)
    (minOrder maxOrder : Z) : list BlockPtr :=
  rangeLoop blocks 0 minOrder maxOrder.

(** [blocks] is a list of pointers here, possibly null. *)
Definition isEntityInAnyBlock (entityArea : NormalizedRect.t)
    (blocks : list BlockPtr) : bool :=
  match blocks with
  | [] => true
  | _ :: _ =>
      let cx := ((NormalizedRect.left entityArea + NormalizedRect.right entityArea) / 2)%Q in
      let cy := ((NormalizedRect.top entityArea + NormalizedRect.bottom entityArea) / 2)%Q in
      existsb (fun ptr : BlockPtr =>
                 match ptr with
                 | Some (_, block) => NormalizedRect.contains (bbox block) cx cy
                 | None => false
                 end) blocks
  end.
End BlockSelectionHelper.

(** ** BlockSelectionHelper: the reading-order text assembler *)

(** [QMap<int, QList<const TextEntity *>>]: iteration is by ascending key,
    so the map is kept as an association list with strictly ascending
    keys. *)
Module QMap.
Definition t : Type := list (Z * list TextEntity.t).

(** [m[k].append(e)]: the group of [k] is created empty when absent. *)
Fixpoint append (k : Z) (e : TextEntity.t) (m : t) : t :=
  match m with
  | [] => [(k, [e])]
  | (k', es) :: rest =>
      if k <? k' then (k, [e]) :: m
      else if k =? k' then (k', es ++ [e]) :: rest
      else (k', es) :: append k e rest
  end.

Definition keys (m : t) : list Z := map fst m.
End QMap.

Module Assembler.
Import LayoutBlock.

(** The order given to entities that are in no block. *)
Definition sentinelOrder : Z := 999999.

(** The same-line tolerance of the comparator, [0.01]. *)
Definition lineTolerance : Q := 1 # 100.

Definition centerY (r : NormalizedRect.t) : Q :=
  (NormalizedRect.top r + NormalizedRect.bottom r) / 2.

(** The comparator handed to [std::sort]. *)
Definition lessThan (a b : TextEntity.t) : bool :=
  let aY := centerY (TextEntity.area a) in
  let bY := centerY (TextEntity.area b) in
  if Qltb lineTolerance (Qabs (aY - bY)) then Qltb aY bY
  else Qltb (NormalizedRect.left (TextEntity.area a))
            (NormalizedRect.left (TextEntity.area b)).

(** Does the entity match the selection area under the chosen test? *)
Definition matches (area : RegularAreaRect.t) (useIntersects : bool)
    (w : TextEntity.t) : bool :=
  if useIntersects then RegularAreaRect.intersects area (TextEntity.area w)
  else
    let center := NormalizedRect.center (TextEntity.area w) in
    RegularAreaRect.contains area (NormalizedPoint.x center) (NormalizedPoint.y center).

(** The inner loop: [blockOrder] starts at [-1] and takes the order of
    the first block that contains the entity's area ([break]). *)
Fixpoint blockOrderOf (blocks : list LayoutBlock.t) (r : NormalizedRect.t) : Z :=
  match blocks with
  | [] => -1
  | block :: rest =>
      if containsRect block r then readingOrder block
      else blockOrderOf rest r
  end.

(** The key under which a matched entity is filed. *)
Definition groupKey (blocks : list LayoutBlock.t) (w : TextEntity.t) : Z :=
  let blockOrder := blockOrderOf blocks (TextEntity.area w) in
  if 0 <=? blockOrder then blockOrder else sentinelOrder.

(** First loop: file every matching entity under its key. *)
Definition collect (words : list TextEntity.t) (blocks : list LayoutBlock.t)
    (area : RegularAreaRect.t) (useIntersects : bool) : QMap.t :=
  fold_left
    (fun entitiesByBlock w =>
       if matches area useIntersects w
       then QMap.append (groupKey blocks w) w entitiesByBlock
       else entitiesByBlock)
    words [].

(** Third loop: append the texts, group after group. *)
Definition concatGroups (m : QMap.t) : string :=
  fold_left
    (fun result group =>
       fold_left (fun acc entity => String.append acc (TextEntity.text entity))
                 (snd group) result)
    m EmptyString.

Section WithSort.
(** [std::sort] is whatever the C++ library provides: a fixed procedure
    from a comparator and a range to the rearranged range. *)
Variable std_sort :
  (TextEntity.t -> TextEntity.t -> bool) -> list TextEntity.t -> list TextEntity.t.

(** Second loop: sort every group with the comparator. *)
Definition sortGroups (m : QMap.t) : QMap.t :=
  map (fun group => (fst group, std_sort lessThan (snd group))) m.

Definition extractTextInReadingOrder (words : list TextEntity.t)
    (blocks : list LayoutBlock.t) (area : RegularAreaRect.t)
    (useIntersects : bool) : string :=
  concatGroups (sortGroups (collect words blocks area useIntersects)).
End WithSort.

(** One admissible [std::sort]: straight insertion, which is what the
    usual implementations run on short ranges. *)
Fixpoint insertSorted (cmp : TextEntity.t -> TextEntity.t -> bool)
    (e : TextEntity.t) (l : list TextEntity.t) : list TextEntity.t :=
  match l with
  | [] => [e]
  | h :: rest => if cmp e h then e :: l else h :: insertSorted cmp e rest
  end.

Definition insertionSort (cmp : TextEntity.t -> TextEntity.t -> bool)
    (l : list TextEntity.t) : list TextEntity.t :=
  fold_left (fun sorted e => insertSorted cmp e sorted) l [].
End Assembler.

(** ** TextPage: the parts of the page object the claims refer to

    textpage.cpp is not among the sources; only the declarations of
    textpage_p.h and the tests are. *)

Module TextPage.
Import LayoutBlock BlockSelectionHelper.

(** Modelled from the spec: [TextPagePrivate::getPreviousBlock], declared
    in textpage_p.h, body absent.  "The block whose
    [readingOrder == b.readingOrder - 1]; none if absent."  The spec does
    not say which block is returned when several have that order, so the
    function is given by the answers the spec allows:
    [isPreviousBlock blocks cur r] holds when [r] is such an answer for
    the block [cur]. *)
Definition isPreviousBlock (blocks : list LayoutBlock.t)
    (cur : nat * LayoutBlock.t) (r : BlockPtr) : Prop :=
  match r with
  | Some (j, c) =>
      blocks !! j = Some c /\ readingOrder c = readingOrder (snd cur) - 1
  | None =>
      forall c, In c blocks -> readingOrder c <> readingOrder (snd cur) - 1
  end.

Section Resolver.
(** The pure geometric selection is an external collaborator of the
    resolver (out of scope in the spec, "assumed to exist"): the selection
    between two points, and the two partial selections of the cross-block
    case, "fragments selected geometrically from the cursor onward", to
    the trailing edge of the given block, and "from that block's leading
    edge up to the cursor". *)
Variable geometricSelection :
  list TextEntity.t -> NormalizedPoint.t -> NormalizedPoint.t -> list TextEntity.t.
Variable selectedFrom :
  list TextEntity.t -> NormalizedPoint.t -> LayoutBlock.t -> TextEntity.t -> bool.
Variable selectedUpTo :
  list TextEntity.t -> NormalizedPoint.t -> LayoutBlock.t -> TextEntity.t -> bool.

(** Modelled from the spec: what a block of the range contributes
    (section 4.3, step 4): the [minOrder] block from the leading cursor
    onward, the [maxOrder] block up to the trailing cursor, any other
    block of the range everything. *)
Definition blockRule (words : list TextEntity.t)
    (leading trailing : NormalizedPoint.t) (minOrder maxOrder : Z)
    (block : LayoutBlock.t) (w : TextEntity.t) : bool :=
  if readingOrder block =? minOrder then selectedFrom words leading block w
  else if readingOrder block =? maxOrder then selectedUpTo words trailing block w
  else true.

(** Modelled from the spec: the cross-block case of the resolver.  The
    range is computed by [getBlocksInReadingOrderRange]; a fragment is
    selected when it is centrally contained in a block of the range
    whose rule takes it.  The result keeps the page's fragment order. *)
Definition crossBlockSelection (words : list TextEntity.t)
    (blocks : list LayoutBlock.t) (leading trailing : NormalizedPoint.t)
    (minOrder maxOrder : Z) : list TextEntity.t :=
  let range := getBlocksInReadingOrderRange blocks minOrder maxOrder in
  List.filter
    (fun w =>
       existsb (fun ptr : BlockPtr =>
                  match ptr with
                  | Some (_, block) =>
                      containsRect block (TextEntity.area w)
                      && blockRule words leading trailing minOrder maxOrder block w
                  | None => false
                  end) range)
    words.

(** Modelled from the spec: [TextPage::textArea] (section 4.3), body
    absent from the sources.  The result is the sequence of selected
    fragments.  The direction of the gesture only decides which endpoint
    leads: the leading cursor is the endpoint that resolved to the
    [minOrder] block, the trailing cursor the other one. *)
Definition textArea (words : list TextEntity.t) (blocks : list LayoutBlock.t)
    (start end_ : NormalizedPoint.t) : list TextEntity.t :=
  match blocks with
  | [] => geometricSelection words start end_
  | _ :: _ =>
      match findBlockForCursor blocks start, findBlockForCursor blocks end_ with
      | Some (_, startBlock), Some (_, endBlock) =>
          if (readingOrder startBlock =? -1) || (readingOrder endBlock =? -1)
          then geometricSelection words start end_
          else
            let minOrder := Z.min (readingOrder startBlock) (readingOrder endBlock) in
            let maxOrder := Z.max (readingOrder startBlock) (readingOrder endBlock) in
            let forward := readingOrder startBlock <=? readingOrder endBlock in
            let leading := if forward then start else end_ in
            let trailing := if forward then end_ else start in
            if minOrder =? maxOrder
            then geometricSelection words start end_
            else crossBlockSelection words blocks leading trailing minOrder maxOrder
      | _, _ => geometricSelection words start end_
      end
  end.
End Resolver.
End TextPage.

(** ** Layouts: those of the test suite (autotests/textpageblocktest.cpp)
    and the ones the counterexamples use *)

Module Fixtures.
Definition rect (l t r b : Q) : NormalizedRect.t := NormalizedRect.mk l t r b.
Definition point (x y : Q) : NormalizedPoint.t := NormalizedPoint.mk x y.
Definition block (name : string) (bb : NormalizedRect.t) (order : Z) : LayoutBlock.t :=
  LayoutBlock.mk name 0 bb "TEXT" order 1.
Definition word (s : string) (a : NormalizedRect.t) : TextEntity.t := TextEntity.mk s a.

(** testCrossBlockSelectionWithFullWidthBlocks *)
Definition header := block "header" (rect 0 0 1 0.1) 0.
Definition left_top := block "left_top" (rect 0 0.1 0.45 0.3) 1.
Definition left_bot := block "left_bot" (rect 0 0.3 0.45 0.5) 2.
Definition right_top := block "right_top" (rect 0.55 0.1 1 0.3) 3.
Definition right_bot := block "right_bot" (rect 0.55 0.3 1 0.5) 4.
Definition footer := block "footer" (rect 0 0.5 1 0.7) 5.
Definition sixBlocks : list LayoutBlock.t :=
  [header; left_top; left_bot; right_top; right_bot; footer].

Definition wHeader := word "Header" (rect 0.1 0.02 0.9 0.08).
Definition wLeftTop := word "LeftTop" (rect 0.1 0.15 0.35 0.25).
Definition wLeftBot := word "LeftBot" (rect 0.1 0.35 0.35 0.45).
Definition wRightTop := word "RightTop" (rect 0.6 0.15 0.85 0.25).
Definition wRightBot := word "RightBot" (rect 0.6 0.35 0.85 0.45).
Definition wFooter := word "Footer" (rect 0.1 0.55 0.9 0.65).
Definition sixWords : list TextEntity.t :=
  [wHeader; wLeftTop; wLeftBot; wRightTop; wRightBot; wFooter].

(** The fragments of testCrossBlockSelectionLinePrecision, on closely
    spaced lines. *)
Definition wL1 := word "L1" (rect 0.1 0.100 0.2 0.110).
Definition wL2 := word "L2" (rect 0.1 0.119 0.2 0.129).
Definition wR1 := word "R1" (rect 0.6 0.150 0.7 0.160).
Definition lineWords : list TextEntity.t := [wL1; wL2; wR1].

(** testMultipleBlocksOnPage: two columns and an out-of-flow header. *)
Definition left_col := block "left_col" (rect 0.05 0.1 0.45 0.9) 0.
Definition right_col := block "right_col" (rect 0.55 0.1 0.95 0.9) 1.
Definition page_header := block "header" (rect 0.05 0.02 0.95 0.08) (-1).
Definition columnsWithHeader : list LayoutBlock.t := [left_col; right_col; page_header].





(** testLayoutBlockContainsRect *)
Definition halfPage : LayoutBlock.t := block "half" (rect 0 0 0.5 1) 0.

End Fixtures.

(** ** Specification-side predicates *)

Import LayoutBlock BlockSelectionHelper.

(** The block the first loop of [findBlockForCursor] is meant to keep: a
    passed block of non-negative order whose order is greatest among the
    passed blocks, the first such in iteration order. *)
Definition bestPassed (blocks : list LayoutBlock.t) (p : NormalizedPoint.t)
    (ptr : nat * LayoutBlock.t) : Prop :=
  blocks !! fst ptr = Some (snd ptr)
  /\ passed p (snd ptr) = true
  /\ 0 <= readingOrder (snd ptr)
  /\ forall j c, blocks !! j = Some c -> passed p c = true ->
       readingOrder c <= readingOrder (snd ptr)
       /\ ((j < fst ptr)%nat -> readingOrder c < readingOrder (snd ptr)).

(** The block the second loop is meant to return: the first block, in
    iteration order, of smallest order among those of order in
    [[0, INT_MAX)]. *)
Definition firstInFlow (blocks : list LayoutBlock.t)
    (ptr : nat * LayoutBlock.t) : Prop :=
  blocks !! fst ptr = Some (snd ptr)
  /\ 0 <= readingOrder (snd ptr) < INT_MAX
  /\ forall j c, blocks !! j = Some c -> 0 <= readingOrder c ->
       readingOrder (snd ptr) <= readingOrder c
       /\ ((j < fst ptr)%nat -> readingOrder (snd ptr) < readingOrder c).

(** The owning block of a rectangle: the first block, in registry order,
    whose centre-based [contains] holds. *)
Definition owningBlock (blocks : list LayoutBlock.t) (r : NormalizedRect.t)
    : BlockPtr :=
  list_find (fun block => containsRect block r = true) blocks.


(** The matched fragments of a selection area, in page order. *)
Definition matchedWords (words : list TextEntity.t) (area : RegularAreaRect.t)
    (useIntersects : bool) : list TextEntity.t :=
  List.filter (Assembler.matches area useIntersects) words.

(** The texts of a sequence of fragments, appended in order. *)
Definition concatTexts (l : list TextEntity.t) : string :=
  fold_left (fun acc entity => String.append acc (TextEntity.text entity))
            l EmptyString.

(** The fragments in the order in which the last loop of
    [extractTextInReadingOrder] visits them: group after group, each group
    as [std::sort] left it. *)
Definition entitiesInOrder
    (std_sort : (TextEntity.t -> TextEntity.t -> bool) ->
                list TextEntity.t -> list TextEntity.t)
    (m : QMap.t) : list TextEntity.t :=
  flat_map (fun group => std_sort Assembler.lessThan (snd group)) m.

(** [getNextBlock] applied [n] times: a walk along the reading order. *)
Fixpoint followNext (blocks : list LayoutBlock.t) (n : nat) (ptr : BlockPtr)
    : BlockPtr :=
  match n with
  | O => ptr
  | S n' => followNext blocks n' (getNextBlock blocks ptr)
  end.

(** The number of blocks whose reading order exceeds [order]. *)
Definition blocksAbove (blocks : list LayoutBlock.t) (order : Z) : nat :=
  length (List.filter (fun block => order <? readingOrder block) blocks).

(** * Properties *)

(** ** Shared facts about the loops *)

Lemma rangeLoop_In (bs : list LayoutBlock.t) k minOrder maxOrder i b :
  In (Some (i, b)) (rangeLoop bs k minOrder maxOrder) <->
  (exists j, i = (k + j)%nat /\ bs !! j = Some b)
  /\ minOrder <= readingOrder b <= maxOrder.
Proof.
  revert k. induction bs as [|c rest IH]; intros k; simpl.
  - split; [tauto | intros [[j [_ Hj]] _]; discriminate].
  - destruct ((minOrder <=? readingOrder c) && (readingOrder c <=? maxOrder))
      eqn:Hc; simpl; rewrite IH.
    + apply andb_true_iff in Hc as [H1 H2].
      apply Z.leb_le in H1. apply Z.leb_le in H2.
      split.
      * intros [Heq | [[j [-> Hj]] Hr]].
        -- injection Heq as <- <-. split; [exists 0%nat; split; [lia | done] | lia].
        -- split; [exists (S j); split; [lia | done] | done].
      * intros [[[|j] [-> Hj]] Hr].
        -- left. simpl in Hj. injection Hj as ->. f_equal. f_equal. lia.
        -- right. split; [exists j; split; [lia | done] | done].
    + assert (~ (minOrder <= readingOrder c <= maxOrder)) as Hn.
      { intros [H1 H2]. apply Z.leb_le in H1. apply Z.leb_le in H2.
        rewrite H1, H2 in Hc. discriminate. }
      split.
      * intros [[j [-> Hj]] Hr]. split; [exists (S j); split; [lia | done] | done].
      * intros [[[|j] [-> Hj]] Hr].
        -- simpl in Hj. injection Hj as ->. contradiction.
        -- split; [exists j; split; [lia | done] | done].
Qed.

(** ** Empty filter list *)

(** C10. For every entity area, [isEntityInAnyBlock] answers [true] when
    the list of block pointers is empty: an empty filter includes
    everything. *)
Theorem isEntityInAnyBlock_empty (entityArea : NormalizedRect.t) :
  isEntityInAnyBlock entityArea [] = true.
Proof. reflexivity. Qed.

(** ** Centroid rule *)

Lemma contains_inside (r : NormalizedRect.t) (x y : Q) :
  NormalizedRect.contains r x y = true <->
  (NormalizedRect.left r <= x /\ x <= NormalizedRect.right r
   /\ NormalizedRect.top r <= y /\ y <= NormalizedRect.bottom r)%Q.
Proof.
  unfold NormalizedRect.contains.
  rewrite !andb_true_iff, !Qleb_le. tauto.
Qed.

(** C7. A rectangle is contained in a block exactly when its centroid
    [((left + right) / 2, (top + bottom) / 2)] lies inside the block's
    bbox, boundaries included, whatever the extent of the rectangle; the
    block filter [isEntityInAnyBlock] applies the same test. *)
Theorem centroid_rule (b : LayoutBlock.t) (r : NormalizedRect.t) (i : nat) :
  let cx := ((NormalizedRect.left r + NormalizedRect.right r) / 2)%Q in
  let cy := ((NormalizedRect.top r + NormalizedRect.bottom r) / 2)%Q in
  (containsRect b r = true <->
   (NormalizedRect.left (bbox b) <= cx /\ cx <= NormalizedRect.right (bbox b)
    /\ NormalizedRect.top (bbox b) <= cy /\ cy <= NormalizedRect.bottom (bbox b))%Q)
  /\ isEntityInAnyBlock r [Some (i, b)] = containsRect b r.
Proof.
  intros cx cy. split.
  - unfold containsRect, contains, NormalizedRect.center. simpl.
    apply contains_inside.
  - unfold isEntityInAnyBlock, containsRect, contains, NormalizedRect.center.
    simpl. apply orb_false_r.
Qed.

(** ** Successor, predecessor and range *)

(** [int] arithmetic. *)
Lemma wrapInt_small z : isInt z -> wrapInt z = z.
Proof.
  unfold isInt, INT_MIN, INT_MAX, wrapInt. intros H.
  rewrite Z.mod_small by lia. lia.
Qed.

Lemma wrapInt_isInt z : isInt (wrapInt z).
Proof.
  unfold isInt, INT_MIN, INT_MAX, wrapInt.
  pose proof (Z.mod_pos_bound (z + 2147483648) 4294967296 ltac:(lia)). lia.
Qed.

Lemma wrapInt_add a b : wrapInt (wrapInt a + b) = wrapInt (a + b).
Proof.
  unfold wrapInt. f_equal.
  replace ((a + 2147483648) mod 4294967296 - 2147483648 + b + 2147483648)
    with ((a + 2147483648) mod 4294967296 + b) by lia.
  rewrite Zplus_mod_idemp_l. f_equal. lia.
Qed.

Lemma wrapInt_eq a b : wrapInt a = wrapInt b -> exists q, b - a = 4294967296 * q.
Proof.
  unfold wrapInt. intros H.
  pose proof (Z.div_mod (a + 2147483648) 4294967296 ltac:(lia)) as Ha.
  pose proof (Z.div_mod (b + 2147483648) 4294967296 ltac:(lia)) as Hb.
  exists ((b + 2147483648) / 4294967296 - (a + 2147483648) / 4294967296). lia.
Qed.

Lemma wrapInt_succ z :
  wrapInt (z + 1) <> z
  /\ (isInt z -> z < INT_MAX -> wrapInt (z + 1) = z + 1)
  /\ (z = INT_MAX -> wrapInt (z + 1) = INT_MIN).
Proof.
  split; [|split].
  - intros H. pose proof (wrapInt_isInt (z + 1)) as Hint. rewrite H in Hint.
    rewrite <- (wrapInt_small z Hint) in H at 2.
    apply wrapInt_eq in H as [q Hq]. lia.
  - intros Hz Hlt. apply wrapInt_small. unfold isInt, INT_MIN, INT_MAX in *. lia.
  - intros ->. reflexivity.
Qed.

Lemma getNextBlock_Some blocks cur i b :
  getNextBlock blocks (Some cur) = Some (i, b) <->
  blocks !! i = Some b /\ readingOrder b = wrapInt (readingOrder (snd cur) + 1)
  /\ forall j c, blocks !! j = Some c -> (j < i)%nat ->
                 readingOrder c <> wrapInt (readingOrder (snd cur) + 1).
Proof.
  destruct cur as [k c]. simpl.
  apply (list_find_Some
           (fun block => readingOrder block = wrapInt (readingOrder c + 1))).
Qed.

(** C5, as stated, fails on the layout of testMultipleBlocksOnPage: the
    out-of-flow header gets the order-0 column as its successor, and a
    range that starts at [-1] contains the header.  An out-of-flow block
    is also the successor of a block of order [-2]. *)
Lemma out_of_flow_counterexample :
  let early := Fixtures.block "early" (Fixtures.rect 0 0 1 0.01) (-2) in
  readingOrder Fixtures.page_header = -1
  /\ getNextBlock Fixtures.columnsWithHeader (Some (2%nat, Fixtures.page_header))
     = Some (0%nat, Fixtures.left_col)
  /\ In (Some (2%nat, Fixtures.page_header))
        (getBlocksInReadingOrderRange Fixtures.columnsWithHeader (-1) 1)
  /\ getNextBlock [early; Fixtures.page_header] (Some (0%nat, early))
     = Some (1%nat, Fixtures.page_header).
Proof.
  split; [reflexivity|]. split; [reflexivity|].
  split; [vm_compute; tauto | reflexivity].
Qed.

(** C5, amended.  [getBlocksInReadingOrderRange] returns exactly the
    blocks whose order lies in [[minOrder, maxOrder]], hence no out-of-flow
    block as soon as [minOrder >= 0].  [getNextBlock] returns the first
    block, in iteration order, whose order is the current order plus one
    computed in [int]: plus one below [INT_MAX], [INT_MIN] at [INT_MAX];
    hence never an out-of-flow block for a current block of order
    [>= 0]; for an out-of-flow current block it does compute a successor,
    the first block of order 0. *)
Theorem out_of_flow_exclusion (blocks : list LayoutBlock.t) :
  (forall minOrder maxOrder i b,
      In (Some (i, b)) (getBlocksInReadingOrderRange blocks minOrder maxOrder) <->
      blocks !! i = Some b /\ minOrder <= readingOrder b <= maxOrder)
  /\ (forall minOrder maxOrder i b,
         0 <= minOrder ->
         In (Some (i, b)) (getBlocksInReadingOrderRange blocks minOrder maxOrder) ->
         readingOrder b <> -1)
  /\ (forall cur i b,
         getNextBlock blocks (Some cur) = Some (i, b) <->
         blocks !! i = Some b
         /\ readingOrder b = wrapInt (readingOrder (snd cur) + 1)
         /\ forall j c, blocks !! j = Some c -> (j < i)%nat ->
                        readingOrder c <> wrapInt (readingOrder (snd cur) + 1))
  /\ (forall z, (isInt z -> z < INT_MAX -> wrapInt (z + 1) = z + 1)
                /\ (z = INT_MAX -> wrapInt (z + 1) = INT_MIN))
  /\ (forall cur n,
         0 <= readingOrder (snd cur) <= INT_MAX ->
         getNextBlock blocks (Some cur) = Some n ->
         readingOrder (snd n) <> -1)
  /\ (forall cur,
         readingOrder (snd cur) = -1 ->
         getNextBlock blocks (Some cur)
         = list_find (fun block => readingOrder block = 0) blocks).
Proof.
  assert (forall minOrder maxOrder i b,
      In (Some (i, b)) (getBlocksInReadingOrderRange blocks minOrder maxOrder) <->
      blocks !! i = Some b /\ minOrder <= readingOrder b <= maxOrder) as Hrange.
  { intros. unfold getBlocksInReadingOrderRange. rewrite rangeLoop_In.
    split.
    - intros [[j [-> Hj]] Hr]. done.
    - intros [Hi Hr]. split; [exists i; done | done]. }
  split; [exact Hrange|]. split.
  { intros minOrder maxOrder i b Hmin Hin. apply Hrange in Hin. lia. }
  split; [intros; apply getNextBlock_Some|]. split.
  { intros z. apply wrapInt_succ. }
  split.
  { intros cur [k nb] Hcur H. apply getNextBlock_Some in H as (_ & Hord & _).
    simpl. rewrite Hord.
    destruct (Z.eq_dec (readingOrder (snd cur)) INT_MAX) as [Hmax | Hne].
    - rewrite (proj2 (proj2 (wrapInt_succ _)) Hmax). discriminate.
    - rewrite (proj1 (proj2 (wrapInt_succ _)));
        unfold isInt, INT_MIN, INT_MAX in *; lia. }
  intros [k c] Hc. simpl in *. apply list_find_ext. intros x. rewrite Hc.
  reflexivity.
Qed.

Lemma out_of_flow_exclusion_witness :
  readingOrder (snd (3%nat, Fixtures.right_top)) <> -1.
Proof.
  apply (proj1 (proj2 (proj2 (proj2 (proj2 (out_of_flow_exclusion Fixtures.sixBlocks)))))
           (2%nat, Fixtures.left_bot) (3%nat, Fixtures.right_top)).
  - unfold INT_MAX. simpl. lia.
  - reflexivity.
Defined.

(** C8, as stated, fails when two blocks share a reading order, whatever
    [getPreviousBlock] is: both order-0 blocks have the order-1 block as
    successor, and its one predecessor cannot be both of them. *)
Lemma successor_predecessor_counterexample :
  let a := Fixtures.block "a" (Fixtures.rect 0 0 1 0.2) 0 in
  let b := Fixtures.block "b" (Fixtures.rect 0 0.2 1 0.4) 0 in
  let n := Fixtures.block "n" (Fixtures.rect 0 0.4 1 0.6) 1 in
  let blocks := [a; b; n] in
  getNextBlock blocks (Some (0%nat, a)) = Some (2%nat, n)
  /\ getNextBlock blocks (Some (1%nat, b)) = Some (2%nat, n)
  /\ forall getPreviousBlock : list LayoutBlock.t -> BlockPtr -> BlockPtr,
       ~ (forall i c m,
            blocks !! i = Some c ->
            getNextBlock blocks (Some (i, c)) = Some m ->
            getPreviousBlock blocks (Some m) = Some (i, c)).
Proof.
  intros a b n blocks. split; [reflexivity|]. split; [reflexivity|].
  intros getPreviousBlock H.
  pose proof (H 0%nat a (2%nat, n) eq_refl eq_refl) as Ha.
  pose proof (H 1%nat b (2%nat, n) eq_refl eq_refl) as Hb.
  rewrite Ha in Hb. discriminate.
Qed.

(** C8, amended.  For a block [b] of the list, of reading order below
    [INT_MAX], with successor [n], every answer the specification allows
    [getPreviousBlock] to give for [n] is a block of the list whose
    reading order equals that of [b]; it is [b] itself whenever [b] is the
    only block of the list with its reading order. *)
Theorem successor_predecessor_symmetry (blocks : list LayoutBlock.t)
    (i : nat) (b : LayoutBlock.t) (n : nat * LayoutBlock.t) (r : BlockPtr) :
  blocks !! i = Some b ->
  isInt (readingOrder b) -> readingOrder b < INT_MAX ->
  getNextBlock blocks (Some (i, b)) = Some n ->
  TextPage.isPreviousBlock blocks n r ->
  (exists j c, r = Some (j, c) /\ blocks !! j = Some c
               /\ readingOrder c = readingOrder b)
  /\ ((forall j c, blocks !! j = Some c -> readingOrder c = readingOrder b -> j = i) ->
      r = Some (i, b)).
Proof.
  intros Hb Hint Hlt Hn Hr. destruct n as [k nb].
  apply getNextBlock_Some in Hn as (Hk & Hord & _). simpl in Hord.
  rewrite (proj1 (proj2 (wrapInt_succ _)) Hint Hlt) in Hord.
  unfold TextPage.isPreviousBlock in Hr. simpl in Hr.
  destruct r as [[j c]|].
  - destruct Hr as [Hj Hc].
    assert (readingOrder c = readingOrder b) as Heq by lia.
    split; [exists j, c; auto|].
    intros Huniq. assert (j = i) as -> by eauto.
    rewrite Hb in Hj. injection Hj as ->. reflexivity.
  - exfalso. apply (Hr b); [|lia].
    apply list_elem_of_In, list_elem_of_lookup. eauto.
Qed.

Lemma successor_predecessor_symmetry_witness :
  Some (2%nat, Fixtures.left_bot) = Some (2%nat, Fixtures.left_bot).
Proof.
  refine (proj2 (successor_predecessor_symmetry Fixtures.sixBlocks 2
                   Fixtures.left_bot (3%nat, Fixtures.right_top)
                   (Some (2%nat, Fixtures.left_bot))
                   eq_refl _ _ eq_refl _) _).
  - unfold isInt, INT_MIN, INT_MAX. simpl. lia.
  - unfold INT_MAX. simpl. lia.
  - split; reflexivity.
  - intros [|[|[|[|[|[|j]]]]]] c Hj Hc; simpl in Hj; try discriminate;
      injection Hj as <-; simpl in Hc; try lia.
Defined.

(** ** Cursor resolution *)

Section CursorLoops.
Variable p : NormalizedPoint.t.
Implicit Types (bs blocks : list LayoutBlock.t).

Lemma passed_iff (b : LayoutBlock.t) :
  passed p b = true <->
  (NormalizedRect.bottom (bbox b) < NormalizedPoint.y p
   \/ (NormalizedRect.top (bbox b) <= NormalizedPoint.y p
       /\ NormalizedPoint.y p <= NormalizedRect.bottom (bbox b)
       /\ NormalizedRect.right (bbox b) < NormalizedPoint.x p))%Q.
Proof.
  unfold passed.
  destruct (Qltb (NormalizedRect.bottom (bbox b)) (NormalizedPoint.y p)) eqn:Hb.
  - apply Qltb_lt in Hb. tauto.
  - assert (~ (NormalizedRect.bottom (bbox b) < NormalizedPoint.y p)%Q) as Hn.
    { rewrite <- Qltb_lt, Hb. discriminate. }
    destruct (_ && _) eqn:Hc.
    + apply andb_true_iff in Hc as [Hc H3]. apply andb_true_iff in Hc as [H1 H2].
      apply Qleb_le in H1. apply Qleb_le in H2. apply Qltb_lt in H3. tauto.
    + split; [discriminate|]. intros [H | (H1 & H2 & H3)]; [contradiction|].
      apply Qleb_le in H1. apply Qleb_le in H2. apply Qltb_lt in H3.
      rewrite H1, H2, H3 in Hc. discriminate.
Qed.

(** Invariant of the first loop. *)
Lemma passedLoop_spec bs k best bestOrder :
  (passedLoop p bs k best bestOrder = best
   /\ forall j c, bs !! j = Some c -> passed p c = true ->
                  readingOrder c <= bestOrder)
  \/ exists j b,
       passedLoop p bs k best bestOrder = Some ((k + j)%nat, b)
       /\ bs !! j = Some b /\ passed p b = true /\ bestOrder < readingOrder b
       /\ forall j' c, bs !! j' = Some c -> passed p c = true ->
            readingOrder c <= readingOrder b
            /\ ((j' < j)%nat -> readingOrder c < readingOrder b).
Proof.
  revert k best bestOrder.
  induction bs as [|block rest IH]; intros k best bestOrder; simpl.
  - left. split; [reflexivity|]. intros j c Hj. discriminate.
  - destruct (passed p block && (bestOrder <? readingOrder block)) eqn:Hc.
    + apply andb_true_iff in Hc as [Hp Ho]. apply Z.ltb_lt in Ho.
      right.
      destruct (IH (S k) (Some (k, block)) (readingOrder block))
        as [[Hr Hall] | (j & b & Hr & Hj & Hpb & Hlt & Hall)].
      * exists 0%nat, block. rewrite Hr, Nat.add_0_r.
        split; [reflexivity|]. split; [reflexivity|].
        split; [exact Hp|]. split; [exact Ho|].
        intros [|j'] c Hj' Hpc; simpl in Hj'.
        -- injection Hj' as <-. lia.
        -- specialize (Hall j' c Hj' Hpc). lia.
      * exists (S j), b. rewrite Hr.
        split; [f_equal; f_equal; lia|]. split; [exact Hj|].
        split; [exact Hpb|]. split; [lia|].
        intros [|j'] c Hj' Hpc; simpl in Hj'.
        -- injection Hj' as <-. lia.
        -- specialize (Hall j' c Hj' Hpc). lia.
    + assert (passed p block = true -> readingOrder block <= bestOrder) as Hblock.
      { intros Hp. rewrite Hp in Hc. simpl in Hc. apply Z.ltb_ge in Hc. exact Hc. }
      destruct (IH (S k) best bestOrder)
        as [[Hr Hall] | (j & b & Hr & Hj & Hpb & Hlt & Hall)].
      * left. split; [exact Hr|].
        intros [|j'] c Hj' Hpc; simpl in Hj'.
        -- injection Hj' as <-. auto.
        -- eauto.
      * right. exists (S j), b. rewrite Hr.
        split; [f_equal; f_equal; lia|]. split; [exact Hj|].
        split; [exact Hpb|]. split; [exact Hlt|].
        intros [|j'] c Hj' Hpc; simpl in Hj'.
        -- injection Hj' as <-. specialize (Hblock Hpc). lia.
        -- specialize (Hall j' c Hj' Hpc). lia.
Qed.

Lemma bestPassed_unique blocks ptr ptr' :
  bestPassed blocks p ptr -> bestPassed blocks p ptr' -> ptr = ptr'.
Proof.
  destruct ptr as [i b], ptr' as [i' b'].
  intros (Hi & Hp & _ & Hall) (Hi' & Hp' & _ & Hall'). simpl in *.
  destruct (Hall i' b' Hi' Hp') as [H1 H2].
  destruct (Hall' i b Hi Hp) as [H1' H2'].
  assert (i = i') as -> by lia.
  rewrite Hi in Hi'. injection Hi' as ->. reflexivity.
Qed.

Lemma passedLoop_Some blocks ptr :
  passedLoop p blocks 0 None (-1) = Some ptr <-> bestPassed blocks p ptr.
Proof.
  assert (forall q, passedLoop p blocks 0 None (-1) = Some q ->
                    bestPassed blocks p q) as Hsound.
  { intros q Hq.
    destruct (passedLoop_spec blocks 0 None (-1))
      as [[Hr _] | (j & b & Hr & Hj & Hpb & Hlt & Hall)].
    - rewrite Hr in Hq. discriminate.
    - rewrite Hr in Hq. injection Hq as <-. unfold bestPassed. simpl.
      split; [exact Hj|]. split; [exact Hpb|]. split; [lia|]. exact Hall. }
  split; [apply Hsound|].
  intros Hbest.
  destruct (passedLoop_spec blocks 0 None (-1))
    as [[_ Hall] | (j & b & Hr & _)].
  - destruct Hbest as (Hi & Hp & Hge & _).
    specialize (Hall _ _ Hi Hp). lia.
  - rewrite Hr. f_equal. eapply bestPassed_unique; [|exact Hbest].
    apply Hsound. exact Hr.
Qed.

Lemma passedLoop_None blocks :
  passedLoop p blocks 0 None (-1) = None <->
  forall b, In b blocks -> passed p b = true -> readingOrder b < 0.
Proof.
  destruct (passedLoop_spec blocks 0 None (-1))
    as [[Hr Hall] | (j & b & Hr & Hj & Hpb & Hlt & _)].
  - split; [|intros _; exact Hr].
    intros _ b Hb Hp. apply list_elem_of_In, list_elem_of_lookup in Hb as [j Hj].
    specialize (Hall _ _ Hj Hp). lia.
  - rewrite Hr. split; [discriminate|]. intros H.
    assert (In b blocks) as Hin.
    { apply list_elem_of_In, list_elem_of_lookup. eauto. }
    specialize (H b Hin Hpb). lia.
Qed.
End CursorLoops.

Section FirstLoop.
Implicit Types (bs blocks : list LayoutBlock.t).

(** Invariant of the second loop. *)
Lemma firstLoop_spec bs k first minOrder :
  (firstLoop bs k first minOrder = first
   /\ forall j c, bs !! j = Some c -> 0 <= readingOrder c ->
                  minOrder <= readingOrder c)
  \/ exists j b,
       firstLoop bs k first minOrder = Some ((k + j)%nat, b)
       /\ bs !! j = Some b /\ 0 <= readingOrder b < minOrder
       /\ forall j' c, bs !! j' = Some c -> 0 <= readingOrder c ->
            readingOrder b <= readingOrder c
            /\ ((j' < j)%nat -> readingOrder b < readingOrder c).
Proof.
  revert k first minOrder.
  induction bs as [|block rest IH]; intros k first minOrder; simpl.
  - left. split; [reflexivity|]. intros j c Hj. discriminate.
  - destruct ((0 <=? readingOrder block) && (readingOrder block <? minOrder)) eqn:Hc.
    + apply andb_true_iff in Hc as [Hge Hlt].
      apply Z.leb_le in Hge. apply Z.ltb_lt in Hlt.
      right.
      destruct (IH (S k) (Some (k, block)) (readingOrder block))
        as [[Hr Hall] | (j & b & Hr & Hj & Hrange & Hall)].
      * exists 0%nat, block. rewrite Hr, Nat.add_0_r.
        split; [reflexivity|]. split; [reflexivity|]. split; [lia|].
        intros [|j'] c Hj' Hc; simpl in Hj'.
        -- injection Hj' as <-. lia.
        -- specialize (Hall j' c Hj' Hc). lia.
      * exists (S j), b. rewrite Hr.
        split; [f_equal; f_equal; lia|]. split; [exact Hj|]. split; [lia|].
        intros [|j'] c Hj' Hc; simpl in Hj'.
        -- injection Hj' as <-. lia.
        -- specialize (Hall j' c Hj' Hc). lia.
    + assert (0 <= readingOrder block -> minOrder <= readingOrder block) as Hblock.
      { intros Hge. apply Z.leb_le in Hge. rewrite Hge in Hc. simpl in Hc.
        apply Z.ltb_ge in Hc. exact Hc. }
      destruct (IH (S k) first minOrder)
        as [[Hr Hall] | (j & b & Hr & Hj & Hrange & Hall)].
      * left. split; [exact Hr|].
        intros [|j'] c Hj' Hge; simpl in Hj'.
        -- injection Hj' as <-. auto.
        -- eauto.
      * right. exists (S j), b. rewrite Hr.
        split; [f_equal; f_equal; lia|]. split; [exact Hj|]. split; [exact Hrange|].
        intros [|j'] c Hj' Hge; simpl in Hj'.
        -- injection Hj' as <-. specialize (Hblock Hge). lia.
        -- specialize (Hall j' c Hj' Hge). lia.
Qed.

Lemma firstInFlow_unique blocks ptr ptr' :
  firstInFlow blocks ptr -> firstInFlow blocks ptr' -> ptr = ptr'.
Proof.
  destruct ptr as [i b], ptr' as [i' b'].
  intros (Hi & Hr & Hall) (Hi' & Hr' & Hall'). simpl in *.
  destruct (Hall i' b' Hi' ltac:(lia)) as [H1 H2].
  destruct (Hall' i b Hi ltac:(lia)) as [H1' H2'].
  assert (i = i') as -> by lia.
  rewrite Hi in Hi'. injection Hi' as ->. reflexivity.
Qed.

Lemma firstLoop_Some blocks ptr :
  firstLoop blocks 0 None INT_MAX = Some ptr <-> firstInFlow blocks ptr.
Proof.
  assert (forall q, firstLoop blocks 0 None INT_MAX = Some q ->
                    firstInFlow blocks q) as Hsound.
  { intros q Hq.
    destruct (firstLoop_spec blocks 0 None INT_MAX)
      as [[Hr _] | (j & b & Hr & Hj & Hrange & Hall)].
    - rewrite Hr in Hq. discriminate.
    - rewrite Hr in Hq. injection Hq as <-. unfold firstInFlow. simpl.
      split; [exact Hj|]. split; [exact Hrange|]. exact Hall. }
  split; [apply Hsound|].
  intros Hfirst.
  destruct (firstLoop_spec blocks 0 None INT_MAX)
    as [[_ Hall] | (j & b & Hr & _)].
  - destruct Hfirst as (Hi & Hrange & _).
    specialize (Hall _ _ Hi ltac:(lia)). lia.
  - rewrite Hr. f_equal. eapply firstInFlow_unique; [|exact Hfirst].
    apply Hsound. exact Hr.
Qed.

Lemma firstLoop_None blocks :
  firstLoop blocks 0 None INT_MAX = None <->
  forall b, In b blocks -> ~ (0 <= readingOrder b < INT_MAX).
Proof.
  destruct (firstLoop_spec blocks 0 None INT_MAX)
    as [[Hr Hall] | (j & b & Hr & Hj & Hrange & _)].
  - split; [|intros _; exact Hr].
    intros _ b Hb Hrange.
    apply list_elem_of_In, list_elem_of_lookup in Hb as [j Hj].
    specialize (Hall _ _ Hj ltac:(lia)). lia.
  - rewrite Hr. split; [discriminate|]. intros H.
    assert (In b blocks) as Hin.
    { apply list_elem_of_In, list_elem_of_lookup. eauto. }
    destruct (H b Hin Hrange).
Qed.
End FirstLoop.

Lemma findBlockContaining_None blocks p :
  findBlockContaining blocks p = None <->
  forall b, In b blocks -> contains b p = false.
Proof.
  unfold findBlockContaining.
  rewrite (list_find_None (fun block => contains block p = true)), Forall_forall.
  split; intros H b Hb.
  - apply list_elem_of_In in Hb. apply not_true_iff_false. auto.
  - apply list_elem_of_In in Hb. rewrite (H b Hb). discriminate.
Qed.

Lemma findBlockContaining_Some blocks p i b :
  findBlockContaining blocks p = Some (i, b) <->
  blocks !! i = Some b /\ contains b p = true
  /\ forall j c, blocks !! j = Some c -> (j < i)%nat -> contains c p <> true.
Proof. apply (list_find_Some (fun block => contains block p = true)). Qed.

(** What [findBlockForCursor] does once no block contains the point. *)
Lemma findBlockForCursor_outside blocks p :
  findBlockContaining blocks p = None ->
  findBlockForCursor blocks p =
  match passedLoop p blocks 0 None (-1) with
  | Some bestBlock =>
      match getNextBlock blocks (Some bestBlock) with
      | Some nextBlock => Some nextBlock
      | None => Some bestBlock
      end
  | None => firstLoop blocks 0 None INT_MAX
  end.
Proof.
  intros H. unfold findBlockForCursor. rewrite H.
  destruct (passedLoop p blocks 0 None (-1)); [reflexivity|].
  destruct blocks; reflexivity.
Qed.




(** C3, as stated, fails on a registry that holds only an out-of-flow
    block: for a point outside it the result is none although the list is
    not empty. *)
Lemma findBlockForCursor_total_counterexample :
  [Fixtures.page_header] <> []
  /\ findBlockForCursor [Fixtures.page_header] (Fixtures.point 0.5 0.5) = None.
Proof. split; [discriminate | reflexivity]. Qed.

(** C3, amended.  [findBlockForCursor] returns none on the empty list, and
    otherwise exactly when no block contains the point, no passed block
    has a non-negative reading order and no block has a reading order in
    [[0, INT_MAX)]; so some block is returned whenever the list has a
    block of order in [[0, INT_MAX)].  When no block contains the point
    and none of non-negative order was passed, the result is the first
    block of smallest reading order among those of order in
    [[0, INT_MAX)], blocks of order [-1] being ignored. *)
Theorem findBlockForCursor_total (blocks : list LayoutBlock.t)
    (p : NormalizedPoint.t) :
  findBlockForCursor [] p = None
  /\ (findBlockForCursor blocks p = None <->
      (forall b, In b blocks -> contains b p = false)
      /\ (forall b, In b blocks -> passed p b = true -> readingOrder b < 0)
      /\ (forall b, In b blocks -> ~ (0 <= readingOrder b < INT_MAX)))
  /\ ((exists b, In b blocks /\ 0 <= readingOrder b < INT_MAX) ->
      exists ptr, findBlockForCursor blocks p = Some ptr)
  /\ ((forall b, In b blocks -> contains b p = false) ->
      (forall b, In b blocks -> passed p b = true -> readingOrder b < 0) ->
      forall ptr, findBlockForCursor blocks p = Some ptr <-> firstInFlow blocks ptr).
Proof.
  assert (findBlockForCursor blocks p = None <->
      (forall b, In b blocks -> contains b p = false)
      /\ (forall b, In b blocks -> passed p b = true -> readingOrder b < 0)
      /\ (forall b, In b blocks -> ~ (0 <= readingOrder b < INT_MAX))) as Hnone.
  { rewrite <- findBlockContaining_None, <- passedLoop_None, <- firstLoop_None.
    destruct (findBlockContaining blocks p) as [d|] eqn:Hd.
    - unfold findBlockForCursor. rewrite Hd.
      split; [discriminate | intros [H _]; discriminate].
    - rewrite (findBlockForCursor_outside _ _ Hd).
      destruct (passedLoop p blocks 0 None (-1)) as [best|].
      + split; [|intros (_ & H & _); discriminate].
        destruct (getNextBlock blocks (Some best)); discriminate.
      + tauto. }
  split; [reflexivity|]. split; [exact Hnone|]. split.
  - intros (b & Hb & Hrange).
    destruct (findBlockForCursor blocks p) as [ptr|] eqn:Hr; [eauto|].
    destruct (proj1 Hnone eq_refl) as (_ & _ & H). destruct (H b Hb Hrange).
  - intros Hout Hpassed ptr.
    apply findBlockContaining_None in Hout. apply passedLoop_None in Hpassed.
    rewrite (findBlockForCursor_outside _ _ Hout), Hpassed.
    apply firstLoop_Some.
Qed.

Lemma findBlockForCursor_total_witness :
  exists ptr,
    findBlockForCursor Fixtures.columnsWithHeader (Fixtures.point 0.5 0.01) = Some ptr.
Proof.
  apply (proj1 (proj2 (proj2 (findBlockForCursor_total Fixtures.columnsWithHeader
                                (Fixtures.point 0.5 0.01))))).
  exists Fixtures.left_col. split; [simpl; tauto | unfold INT_MAX; simpl; lia].
Defined.

(** ** The assembler *)

Section AssemblerFacts.
Import Assembler.

Lemma blockOrderOf_owner blocks r :
  blockOrderOf blocks r =
  match owningBlock blocks r with
  | Some (_, block) => readingOrder block
  | None => -1
  end.
Proof.
  unfold owningBlock. induction blocks as [|b rest IH]; simpl; [reflexivity|].
  destruct (containsRect b r) eqn:Hb.
  - rewrite decide_True by reflexivity. reflexivity.
  - rewrite decide_False by discriminate. rewrite IH.
    destruct (list_find _ rest) as [[i c]|]; reflexivity.
Qed.

Lemma insertSorted_perm cmp e l : insertSorted cmp e l ≡ₚ e :: l.
Proof.
  induction l as [|h rest IH]; simpl; [reflexivity|].
  destruct (cmp e h); [reflexivity|].
  rewrite IH. apply perm_swap.
Qed.

Lemma insertionSort_perm cmp l : insertionSort cmp l ≡ₚ l.
Proof.
  unfold insertionSort.
  assert (forall acc, fold_left (fun sorted e => insertSorted cmp e sorted) l acc
                      ≡ₚ acc ++ l) as H.
  { induction l as [|e rest IH]; intros acc; simpl.
    - rewrite app_nil_r. reflexivity.
    - rewrite IH, insertSorted_perm. apply Permutation_middle. }
  apply (H []).
Qed.

(** The map keeps its keys strictly ascending, which is the iteration
    order of [QMap]. *)
Lemma append_keys k e (m : QMap.t) x :
  In x (QMap.keys (QMap.append k e m)) <-> x = k \/ In x (QMap.keys m).
Proof.
  induction m as [|[k' es] rest IH]; simpl.
  - intuition congruence.
  - destruct (k <? k') eqn:Hlt; simpl; [intuition congruence|].
    destruct (k =? k') eqn:Heq; simpl.
    + apply Z.eqb_eq in Heq. subst k'. intuition congruence.
    + rewrite IH. intuition congruence.
Qed.

Lemma append_sorted k e (m : QMap.t) :
  StronglySorted Z.lt (QMap.keys m) ->
  StronglySorted Z.lt (QMap.keys (QMap.append k e m)).
Proof.
  induction m as [|[k' es] rest IH]; simpl; intros Hs.
  - repeat constructor.
  - apply StronglySorted_inv in Hs as [Hrest Hall].
    destruct (k <? k') eqn:Hlt; simpl.
    + apply Z.ltb_lt in Hlt. constructor.
      * constructor; assumption.
      * constructor; [exact Hlt|].
        eapply Forall_impl; [exact Hall|]. simpl. intros a Ha. lia.
    + destruct (k =? k') eqn:Heq; simpl.
      * constructor; assumption.
      * apply Z.ltb_ge in Hlt. apply Z.eqb_neq in Heq.
        constructor; [apply IH; exact Hrest|].
        apply Forall_forall. intros x Hx.
        apply list_elem_of_In, append_keys in Hx as [-> | Hx]; [lia|].
        rewrite Forall_forall in Hall. apply Hall, list_elem_of_In, Hx.
Qed.

Lemma collect_invariant words blocks area useIntersects :
  let m := collect words blocks area useIntersects in
  StronglySorted Z.lt (QMap.keys m)
  /\ forall k, In k (QMap.keys m) ->
       exists w, In w words /\ matches area useIntersects w = true
                 /\ k = groupKey blocks w.
Proof.
  unfold collect.
  set (step := fun (entitiesByBlock : QMap.t) w =>
                 if matches area useIntersects w
                 then QMap.append (groupKey blocks w) w entitiesByBlock
                 else entitiesByBlock).
  assert (forall ws acc,
             StronglySorted Z.lt (QMap.keys acc) ->
             StronglySorted Z.lt (QMap.keys (fold_left step ws acc))
             /\ forall k, In k (QMap.keys (fold_left step ws acc)) ->
                  In k (QMap.keys acc)
                  \/ exists w, In w ws /\ matches area useIntersects w = true
                               /\ k = groupKey blocks w) as H.
  { induction ws as [|w rest IH]; intros acc Hacc; simpl.
    - split; [exact Hacc | auto].
    - assert (StronglySorted Z.lt (QMap.keys (step acc w))) as Hstep.
      { unfold step. destruct (matches area useIntersects w);
          [apply append_sorted|]; exact Hacc. }
      destruct (IH _ Hstep) as [Hs Hk]. split; [exact Hs|].
      intros k Hin. destruct (Hk k Hin) as [Hin' | (w' & Hw' & Hm & ->)].
      + unfold step in Hin'. destruct (matches area useIntersects w) eqn:Hm.
        * apply append_keys in Hin' as [-> | Hin']; [|auto].
          right. exists w. auto.
        * auto.
      + right. exists w'. auto. }
  destruct (H words [] ltac:(constructor)) as [Hs Hk].
  split; [exact Hs|]. intros k Hin.
  destruct (Hk k Hin) as [[] | Hw]. exact Hw.
Qed.

(** As long as every reading order is below the sentinel, no key exceeds
    it: the group of the fragments in no block is then the last one. *)
Lemma groupKey_bound blocks w :
  (forall b, In b blocks -> readingOrder b < sentinelOrder) ->
  groupKey blocks w <= sentinelOrder.
Proof.
  intros Hb. unfold groupKey.
  destruct (0 <=? _) eqn:Hge; [|lia].
  induction blocks as [|b rest IH]; simpl in *; [discriminate|].
  destruct (containsRect b (TextEntity.area w)).
  - specialize (Hb b (or_introl eq_refl)). lia.
  - apply IH; auto.
Qed.

Lemma sentinel_last_below_bound words blocks area useIntersects k :
  (forall b, In b blocks -> readingOrder b < sentinelOrder) ->
  In k (QMap.keys (collect words blocks area useIntersects)) ->
  k <= sentinelOrder.
Proof.
  intros Hb Hin.
  apply collect_invariant in Hin as (w & _ & _ & ->).
  apply groupKey_bound, Hb.
Qed.

(** The comparator is not transitive: three fragments, each within the
    tolerance of the next, whose first and last are on different lines.
    What [std::sort] makes of such a range is not determined by the
    comparator. *)
Lemma lessThan_cycle :
  let a := Fixtures.word "a" (Fixtures.rect 0.1 0.016 0.2 0.016) in
  let b := Fixtures.word "b" (Fixtures.rect 0.2 0.008 0.3 0.008) in
  let c := Fixtures.word "c" (Fixtures.rect 0.3 0 0.4 0) in
  lessThan a b = true /\ lessThan b c = true /\ lessThan c a = true.
Proof. repeat split. Qed.

Lemma sort_singleton
    (std_sort : (TextEntity.t -> TextEntity.t -> bool) ->
                list TextEntity.t -> list TextEntity.t) cmp e :
  (forall c l, std_sort c l ≡ₚ l) -> std_sort cmp [e] = [e].
Proof. intros H. apply Permutation_singleton_r. apply H. Qed.
End AssemblerFacts.

(** C6: the code at an input where the sentinel is not last.  A block of
    reading order 1000000 owns the fragment "inside"; the fragment
    "outside" lies in no block and is filed under 999999, below the
    block's key; its text comes first in the output, for every sorting
    procedure that permutes its input. *)
Theorem sentinel_not_last
    (std_sort : (TextEntity.t -> TextEntity.t -> bool) ->
                list TextEntity.t -> list TextEntity.t) :
  (forall cmp l, std_sort cmp l ≡ₚ l) ->
  let late := Fixtures.block "late" (Fixtures.rect 0 0 1 0.5) 1000000 in
  let inside := Fixtures.word "inside" (Fixtures.rect 0.1 0.1 0.2 0.2) in
  let outside := Fixtures.word "outside" (Fixtures.rect 0.1 0.6 0.2 0.7) in
  let area := [TextEntity.area inside; TextEntity.area outside] in
  owningBlock [late] (TextEntity.area inside) = Some (0%nat, late)
  /\ owningBlock [late] (TextEntity.area outside) = None
  /\ Assembler.groupKey [late] inside = 1000000
  /\ Assembler.groupKey [late] outside = Assembler.sentinelOrder
  /\ Assembler.extractTextInReadingOrder std_sort [inside; outside] [late] area true
     = "outsideinside"%string.
Proof.
  intros Hperm late inside outside area.
  split; [reflexivity|]. split; [reflexivity|].
  split; [reflexivity|]. split; [reflexivity|].
  unfold Assembler.extractTextInReadingOrder.
  replace (Assembler.collect [inside; outside] [late] area true)
    with [(Assembler.sentinelOrder, [outside]); (1000000, [inside])]
    by (vm_compute; reflexivity).
  unfold Assembler.sortGroups. simpl.
  rewrite !(sort_singleton std_sort _ _ Hperm). reflexivity.
Qed.

Lemma sentinel_not_last_witness :
  Assembler.extractTextInReadingOrder Assembler.insertionSort
    [Fixtures.word "inside" (Fixtures.rect 0.1 0.1 0.2 0.2);
     Fixtures.word "outside" (Fixtures.rect 0.1 0.6 0.2 0.7)]
    [Fixtures.block "late" (Fixtures.rect 0 0 1 0.5) 1000000]
    [Fixtures.rect 0.1 0.1 0.2 0.2; Fixtures.rect 0.1 0.6 0.2 0.7] true
  = "outsideinside"%string.
Proof.
  exact (proj2 (proj2 (proj2 (proj2
           (sentinel_not_last Assembler.insertionSort insertionSort_perm))))).
Defined.

(** ** The resolver *)

Section ResolverFacts.
Import TextPage.
Variable geometricSelection :
  list TextEntity.t -> NormalizedPoint.t -> NormalizedPoint.t -> list TextEntity.t.
Variables selectedFrom selectedUpTo :
  list TextEntity.t -> NormalizedPoint.t -> LayoutBlock.t -> TextEntity.t -> bool.


(** With endpoints resolved to blocks of distinct non-negative orders
    the resolver takes the cross-block path; the endpoint of the lower
    order leads. *)
Lemma textArea_cross words blocks start end_ sp ep :
  findBlockForCursor blocks start = Some sp ->
  findBlockForCursor blocks end_ = Some ep ->
  0 <= readingOrder (snd sp) -> 0 <= readingOrder (snd ep) ->
  readingOrder (snd sp) <> readingOrder (snd ep) ->
  textArea geometricSelection selectedFrom selectedUpTo words blocks start end_ =
  crossBlockSelection selectedFrom selectedUpTo words blocks
    (if readingOrder (snd sp) <=? readingOrder (snd ep) then start else end_)
    (if readingOrder (snd sp) <=? readingOrder (snd ep) then end_ else start)
    (Z.min (readingOrder (snd sp)) (readingOrder (snd ep)))
    (Z.max (readingOrder (snd sp)) (readingOrder (snd ep))).
Proof.
  intros Hs He Hs0 He0 Hne. unfold textArea.
  destruct blocks as [|b0 rest]; [discriminate|].
  rewrite Hs, He. destruct sp as [si sb], ep as [ei eb]. simpl in *.
  replace (readingOrder sb =? -1) with false by (symmetry; apply Z.eqb_neq; lia).
  replace (readingOrder eb =? -1) with false by (symmetry; apply Z.eqb_neq; lia).
  simpl.
  replace (Z.min (readingOrder sb) (readingOrder eb)
           =? Z.max (readingOrder sb) (readingOrder eb)) with false
    by (symmetry; apply Z.eqb_neq; lia).
  reflexivity.
Qed.


(** In the cross-block case the direction of the gesture does not change
    the result: a backward drag selects what the forward drag between the
    same two points selects. *)
Lemma textArea_direction words blocks start end_ sp ep :
  findBlockForCursor blocks start = Some sp ->
  findBlockForCursor blocks end_ = Some ep ->
  0 <= readingOrder (snd sp) -> 0 <= readingOrder (snd ep) ->
  readingOrder (snd sp) <> readingOrder (snd ep) ->
  textArea geometricSelection selectedFrom selectedUpTo words blocks end_ start
  = textArea geometricSelection selectedFrom selectedUpTo words blocks start end_.
Proof.
  intros Hs He Hs0 He0 Hne.
  rewrite (textArea_cross words blocks start end_ sp ep) by assumption.
  rewrite (textArea_cross words blocks end_ start ep sp) by auto.
  rewrite Z.min_comm, Z.max_comm.
  destruct (readingOrder (snd sp) <=? readingOrder (snd ep)) eqn:Hfwd.
  - apply Z.leb_le in Hfwd.
    replace (readingOrder (snd ep) <=? readingOrder (snd sp)) with false
      by (symmetry; apply Z.leb_gt; lia).
    reflexivity.
  - apply Z.leb_gt in Hfwd.
    replace (readingOrder (snd ep) <=? readingOrder (snd sp)) with true
      by (symmetry; apply Z.leb_le; lia).
    reflexivity.
Qed.
End ResolverFacts.



(** A cursor on the edge that the order-2 block shares with the order-1
    block above it is inside both and resolves to the earlier one. *)
Example shared_edge_resolves_above :
  contains Fixtures.left_bot (Fixtures.point 0.1 0.3) = true
  /\ findBlockForCursor Fixtures.sixBlocks (Fixtures.point 0.1 0.3)
     = Some (1%nat, Fixtures.left_top).
Proof. split; reflexivity. Qed.




(** ** The sort comparator *)

Section Comparator.
Local Open Scope Q_scope.

Lemma lessThan_iff (a b : TextEntity.t) :
  let aY := Assembler.centerY (TextEntity.area a) in
  let bY := Assembler.centerY (TextEntity.area b) in
  Assembler.lessThan a b = true <->
  (Assembler.lineTolerance < Qabs (aY - bY) /\ aY < bY)
  \/ (Qabs (aY - bY) <= Assembler.lineTolerance
      /\ NormalizedRect.left (TextEntity.area a) < NormalizedRect.left (TextEntity.area b)).
Proof.
  intros aY bY. unfold Assembler.lessThan. fold aY bY.
  destruct (Qltb Assembler.lineTolerance (Qabs (aY - bY))) eqn:Hfar.
  - apply Qltb_lt in Hfar. rewrite Qltb_lt. split; [tauto|].
    intros [[_ H] | [H _]]; [exact H|].
    apply Qle_not_lt in H. contradiction.
  - assert (Qabs (aY - bY) <= Assembler.lineTolerance) as Hclose.
    { apply Qnot_lt_le. rewrite <- Qltb_lt, Hfar. discriminate. }
    rewrite Qltb_lt. split; [tauto|].
    intros [[H _] | [_ H]]; [|exact H].
    apply Qle_not_lt in Hclose. contradiction.
Qed.
End Comparator.

(** ** The model against the test suite

    testLayoutBlockContainsRectSpanningBoundary: a rectangle that leaves
    the block with its centre inside is contained; one that overlaps the
    block with its centre outside is not; a centre on the edge counts as
    inside. *)

Module SuiteTests.
Import Fixtures.

Example spanning_centre_inside :
  containsRect halfPage (rect 0.3 0.3 0.6 0.7) = true.
Proof. reflexivity. Qed.

Example spanning_centre_outside :
  NormalizedRect.intersects (bbox halfPage) (rect 0.4 0.3 0.8 0.7) = true
  /\ containsRect halfPage (rect 0.4 0.3 0.8 0.7) = false.
Proof. split; reflexivity. Qed.

Example centre_on_edge :
  containsRect halfPage (rect 0.4 0.3 0.6 0.7) = true.
Proof. reflexivity. Qed.
End SuiteTests.

(** * Further properties of the code *)

(** ** The block locator *)

(** X1. Whatever [findBlockForCursor] returns is an element of the block
    list at the returned position.  With reading orders in the range of
    [int], it contains the point, or has a non-negative reading order, or
    is the wrap-around successor of a passed block of order [INT_MAX]:
    its order is then [INT_MIN].  Among lists without a block of order
    [INT_MAX], a block of negative order is returned only when the point
    is inside it. *)
Theorem findBlockForCursor_result (blocks : list LayoutBlock.t)
    (p : NormalizedPoint.t) (i : nat) (b : LayoutBlock.t) :
  (forall c, In c blocks -> isInt (readingOrder c)) ->
  findBlockForCursor blocks p = Some (i, b) ->
  blocks !! i = Some b
  /\ (contains b p = true
      \/ 0 <= readingOrder b
      \/ (readingOrder b = INT_MIN
          /\ exists c, In c blocks /\ passed p c = true
                       /\ readingOrder c = INT_MAX)).
Proof.
  intros Hint H.
  destruct (findBlockContaining blocks p) as [d|] eqn:Hd.
  - unfold findBlockForCursor in H. rewrite Hd in H. injection H as ->.
    apply findBlockContaining_Some in Hd as (Hi & Hc & _). auto.
  - rewrite (findBlockForCursor_outside _ _ Hd) in H.
    destruct (passedLoop p blocks 0 None (-1)) as [best|] eqn:Hbest.
    + apply passedLoop_Some in Hbest as (Hbi & Hpassed & Hb0 & _).
      assert (In (snd best) blocks) as Hin.
      { apply list_elem_of_In, list_elem_of_lookup. eauto. }
      destruct (getNextBlock blocks (Some best)) as [nxt|] eqn:Hn.
      * injection H as ->.
        apply getNextBlock_Some in Hn as (Hi & Hord & _). split; [exact Hi|].
        simpl in Hord.
        destruct (Z.eq_dec (readingOrder (snd best)) INT_MAX) as [Hmax | Hlt].
        -- right. right. split.
           ++ rewrite Hord. apply wrapInt_succ. exact Hmax.
           ++ exists (snd best). auto.
        -- right. left. pose proof (Hint _ Hin) as Hb.
           rewrite (proj1 (proj2 (wrapInt_succ _)) Hb) in Hord
             by (unfold isInt in Hb; lia).
           lia.
      * injection H as ->. simpl in *. auto.
    + apply firstLoop_Some in H as (Hi & Hrange & _). simpl in *.
      split; [exact Hi|]. right. left. lia.
Qed.

Lemma findBlockForCursor_result_witness :
  Fixtures.columnsWithHeader !! 1%nat = Some Fixtures.right_col
  /\ (contains Fixtures.right_col (Fixtures.point 0.5 0.5) = true
      \/ 0 <= readingOrder Fixtures.right_col
      \/ (readingOrder Fixtures.right_col = INT_MIN
          /\ exists c, In c Fixtures.columnsWithHeader
                       /\ passed (Fixtures.point 0.5 0.5) c = true
                       /\ readingOrder c = INT_MAX)).
Proof.
  apply (findBlockForCursor_result Fixtures.columnsWithHeader
           (Fixtures.point 0.5 0.5) 1 Fixtures.right_col).
  - intros c Hc. simpl in Hc. unfold isInt, INT_MIN, INT_MAX.
    destruct Hc as [<-|[<-|[<-|[]]]]; simpl; lia.
  - reflexivity.
Defined.

(** X2. A block that contains the cursor is not passed by it. *)
Theorem contained_not_passed (p : NormalizedPoint.t) (b : LayoutBlock.t) :
  contains b p = true -> passed p b = false.
Proof.
  intros Hc. apply not_true_iff_false. intros Hp.
  apply contains_inside in Hc. apply passed_iff in Hp. lra.
Qed.

Lemma contained_not_passed_witness :
  passed (Fixtures.point 0.25 0.5) Fixtures.left_col = false.
Proof.
  exact (contained_not_passed (Fixtures.point 0.25 0.5) Fixtures.left_col eq_refl).
Defined.

(** X3. Being passed is monotone: once the cursor has passed a block,
    moving it further down or further right keeps the block passed. *)
Theorem passed_monotone (p q : NormalizedPoint.t) (b : LayoutBlock.t) :
  (NormalizedPoint.x p <= NormalizedPoint.x q)%Q ->
  (NormalizedPoint.y p <= NormalizedPoint.y q)%Q ->
  passed p b = true -> passed q b = true.
Proof.
  intros Hx Hy Hp. apply passed_iff in Hp. apply passed_iff.
  destruct (Qlt_le_dec (NormalizedRect.bottom (bbox b)) (NormalizedPoint.y q))
    as [Hlow | Hlevel]; [left; exact Hlow|].
  right. lra.
Qed.

Lemma passed_monotone_witness :
  passed (Fixtures.point 0.6 0.95) Fixtures.left_col = true.
Proof.
  apply (passed_monotone (Fixtures.point 0.5 0.5) (Fixtures.point 0.6 0.95)
           Fixtures.left_col).
  - simpl. lra.
  - simpl. lra.
  - reflexivity.
Defined.

(** X4. A cursor that has passed every block resolves to the end of the
    flow.  With reading orders in the range of [int] and some block of
    non-negative order, let [b] be the first block, in iteration order,
    of greatest reading order.  If that order is below [INT_MAX] the
    result is [b].  If it is [INT_MAX] the successor order wraps around
    to [INT_MIN]: the result is the first block of order [INT_MIN] when
    there is one, and [b] otherwise. *)
Theorem findBlockForCursor_past_all (blocks : list LayoutBlock.t)
    (p : NormalizedPoint.t) :
  (forall b, In b blocks -> passed p b = true) ->
  (forall b, In b blocks -> isInt (readingOrder b)) ->
  (exists b, In b blocks /\ 0 <= readingOrder b) ->
  exists i b,
    blocks !! i = Some b
    /\ (forall j c, blocks !! j = Some c ->
          readingOrder c <= readingOrder b
          /\ ((j < i)%nat -> readingOrder c < readingOrder b))
    /\ (readingOrder b < INT_MAX -> findBlockForCursor blocks p = Some (i, b))
    /\ (readingOrder b = INT_MAX ->
        findBlockForCursor blocks p
        = match list_find (fun c => readingOrder c = INT_MIN) blocks with
          | Some n => Some n
          | None => Some (i, b)
          end).
Proof.
  intros Hall Hint (b0 & Hb0 & Hge).
  assert (forall j c, blocks !! j = Some c -> In c blocks) as Hmem.
  { intros j c Hj. apply list_elem_of_In, list_elem_of_lookup. eauto. }
  assert (findBlockContaining blocks p = None) as Hnone.
  { apply findBlockContaining_None. intros b Hb.
    destruct (contains b p) eqn:Hc; [|reflexivity].
    pose proof (proj1 (passed_iff p b) (Hall b Hb)) as Hp.
    apply contains_inside in Hc. lra. }
  rewrite (findBlockForCursor_outside _ _ Hnone).
  destruct (passedLoop p blocks 0 None (-1)) as [[i b]|] eqn:Hbest.
  - apply passedLoop_Some in Hbest as (Hi & _ & _ & Hmax). simpl in Hi, Hmax.
    exists i, b. split; [exact Hi|]. split.
    { intros j c Hj. exact (Hmax j c Hj (Hall c (Hmem j c Hj))). }
    split.
    + intros Hlt.
      assert (getNextBlock blocks (Some (i, b)) = None) as ->; [|reflexivity].
      simpl.
      apply (list_find_None
               (fun block => readingOrder block = wrapInt (readingOrder b + 1))).
      apply Forall_forall. intros c Hc Heq.
      apply list_elem_of_lookup in Hc as [j Hj].
      destruct (Hmax j c Hj (Hall c (Hmem j c Hj))) as [Hle _].
      rewrite (proj1 (proj2 (wrapInt_succ _)) (Hint b (Hmem i b Hi)) Hlt) in Heq.
      lia.
    + intros Heq.
      change (getNextBlock blocks (Some (i, b)))
        with (list_find
                (fun block => readingOrder block = wrapInt (readingOrder b + 1))
                blocks).
      rewrite (list_find_ext
                 (fun block => readingOrder block = wrapInt (readingOrder b + 1))
                 (fun c => readingOrder c = INT_MIN)).
      * reflexivity.
      * intros c. rewrite (proj2 (proj2 (wrapInt_succ _)) Heq). reflexivity.
  - exfalso. pose proof (proj1 (passedLoop_None p blocks) Hbest b0 Hb0 (Hall b0 Hb0)).
    lia.
Qed.

Lemma findBlockForCursor_past_all_witness :
  exists i b,
    Fixtures.sixBlocks !! i = Some b
    /\ (forall j c, Fixtures.sixBlocks !! j = Some c ->
          readingOrder c <= readingOrder b
          /\ ((j < i)%nat -> readingOrder c < readingOrder b))
    /\ (readingOrder b < INT_MAX ->
        findBlockForCursor Fixtures.sixBlocks (Fixtures.point 0.5 0.9) = Some (i, b))
    /\ (readingOrder b = INT_MAX ->
        findBlockForCursor Fixtures.sixBlocks (Fixtures.point 0.5 0.9)
        = match list_find (fun c => readingOrder c = INT_MIN) Fixtures.sixBlocks with
          | Some n => Some n
          | None => Some (i, b)
          end).
Proof.
  apply (findBlockForCursor_past_all Fixtures.sixBlocks (Fixtures.point 0.5 0.9)).
  - intros b Hb. simpl in Hb.
    destruct Hb as [<-|[<-|[<-|[<-|[<-|[<-|[]]]]]]]; reflexivity.
  - intros b Hb. simpl in Hb. unfold isInt, INT_MIN, INT_MAX.
    destruct Hb as [<-|[<-|[<-|[<-|[<-|[<-|[]]]]]]]; simpl; lia.
  - exists Fixtures.footer. split; [simpl; tauto | simpl; lia].
Defined.

(** X5. [getNextBlock] is a strict-successor search in [int]
    arithmetic: the successor order of a block is its reading order plus
    one, except that [INT_MAX] is followed by [INT_MIN].  A block has a
    successor exactly when some block of the list has the successor order
    (a gap in the numbering gives none), the successor is an element of
    the list with that order, and it is never the block itself; the null
    pointer has no successor. *)
Theorem getNextBlock_strict_successor (blocks : list LayoutBlock.t)
    (i : nat) (b : LayoutBlock.t) :
  isInt (readingOrder b) ->
  let next := if readingOrder b =? INT_MAX then INT_MIN else readingOrder b + 1 in
  getNextBlock blocks None = None
  /\ (is_Some (getNextBlock blocks (Some (i, b))) <->
      exists c, In c blocks /\ readingOrder c = next)
  /\ (forall j c,
         blocks !! i = Some b ->
         getNextBlock blocks (Some (i, b)) = Some (j, c) ->
         blocks !! j = Some c /\ readingOrder c = next /\ j <> i).
Proof.
  intros Hint next.
  assert (wrapInt (readingOrder b + 1) = next) as Hnext.
  { subst next. destruct (readingOrder b =? INT_MAX) eqn:Hmax.
    - apply Z.eqb_eq in Hmax. apply wrapInt_succ. exact Hmax.
    - apply Z.eqb_neq in Hmax. apply wrapInt_succ; [exact Hint|].
      unfold isInt in Hint. lia. }
  split; [reflexivity|]. split.
  - split.
    + intros [[j c] Hn]. apply getNextBlock_Some in Hn as (Hj & Hord & _).
      exists c. split; [|simpl in Hord; congruence].
      apply list_elem_of_In, list_elem_of_lookup. eauto.
    + intros (c & Hc & Hord). simpl.
      apply (list_find_elem_of
               (fun block => readingOrder block = wrapInt (readingOrder b + 1))
               blocks c); [apply list_elem_of_In; exact Hc | congruence].
  - intros j c Hi Hn. apply getNextBlock_Some in Hn as (Hj & Hord & _).
    simpl in Hord. split; [exact Hj|]. split; [congruence|].
    intros ->. rewrite Hi in Hj. injection Hj as ->.
    exact (proj1 (wrapInt_succ _) (eq_sym Hord)).
Qed.

Lemma getNextBlock_strict_successor_witness :
  Fixtures.sixBlocks !! 3%nat = Some Fixtures.right_top
  /\ readingOrder Fixtures.right_top = 3
  /\ 3%nat <> 2%nat.
Proof.
  refine (proj2 (proj2 (getNextBlock_strict_successor Fixtures.sixBlocks 2
                          Fixtures.left_bot _))
            3%nat Fixtures.right_top eq_refl eq_refl).
  unfold isInt, INT_MIN, INT_MAX. simpl. lia.
Defined.

Lemma followNext_None blocks n : followNext blocks n None = None.
Proof. induction n as [|n IH]; simpl; [reflexivity | exact IH]. Qed.

Lemma followNext_add blocks a b ptr :
  followNext blocks (a + b) ptr = followNext blocks b (followNext blocks a ptr).
Proof.
  revert ptr. induction a as [|a IH]; intros ptr; [reflexivity|].
  change (followNext blocks (a + b) (getNextBlock blocks ptr)
          = followNext blocks b (followNext blocks a (getNextBlock blocks ptr))).
  apply IH.
Qed.

(** The walk stands on list elements, and their orders advance by one per
    step in [int] arithmetic. *)
Lemma followNext_order blocks n c ptr :
  followNext blocks (S n) (Some c) = Some ptr ->
  blocks !! fst ptr = Some (snd ptr)
  /\ readingOrder (snd ptr) = wrapInt (readingOrder (snd c) + Z.of_nat (S n)).
Proof.
  revert c. induction n as [|n IH]; intros c Hm.
  - change (getNextBlock blocks (Some c) = Some ptr) in Hm.
    destruct ptr as [j d].
    apply getNextBlock_Some in Hm as (Hj & Hd & _). simpl. split; [exact Hj|].
    exact Hd.
  - change (followNext blocks (S n) (getNextBlock blocks (Some c)) = Some ptr) in Hm.
    destruct (getNextBlock blocks (Some c)) as [[j d]|] eqn:Hn.
    + apply IH in Hm as [Hlook Hord]. split; [exact Hlook|].
      apply getNextBlock_Some in Hn as (_ & Hd & _). simpl in Hd, Hord.
      rewrite Hord, Hd, wrapInt_add. f_equal. lia.
    + rewrite followNext_None in Hm. discriminate.
Qed.

Lemma blocksAbove_step (blocks : list LayoutBlock.t) (order : Z) (c : LayoutBlock.t) :
  In c blocks -> readingOrder c = order + 1 ->
  (S (blocksAbove blocks (order + 1)) <= blocksAbove blocks order)%nat.
Proof.
  unfold blocksAbove. induction blocks as [|d rest IH]; intros Hin Hc; [destruct Hin|].
  simpl.
  assert (forall l,
             (length (List.filter (fun block => (order + 1 <? readingOrder block)%Z) l)
              <= length (List.filter (fun block => (order <? readingOrder block)%Z) l))%nat)
    as Hmono.
  { induction l as [|e l IHl]; simpl; [lia|].
    destruct (order + 1 <? readingOrder e) eqn:H1.
    - apply Z.ltb_lt in H1.
      replace (order <? readingOrder e) with true by (symmetry; apply Z.ltb_lt; lia).
      simpl. lia.
    - destruct (order <? readingOrder e); simpl; lia. }
  destruct Hin as [-> | Hin].
  - replace (order + 1 <? readingOrder c) with false
      by (symmetry; apply Z.ltb_ge; lia).
    replace (order <? readingOrder c) with true by (symmetry; apply Z.ltb_lt; lia).
    simpl. specialize (Hmono rest). lia.
  - specialize (IH Hin Hc).
    destruct (order + 1 <? readingOrder d) eqn:H1.
    + apply Z.ltb_lt in H1.
      replace (order <? readingOrder d) with true by (symmetry; apply Z.ltb_lt; lia).
      simpl. lia.
    + destruct (order <? readingOrder d); simpl; lia.
Qed.

(** Below [INT_MAX] the walk climbs: each step raises the order by one
    and uses up a block of higher order. *)
Lemma followNext_climb blocks n c ptr :
  followNext blocks n (Some c) = Some ptr ->
  INT_MIN <= readingOrder (snd c) ->
  readingOrder (snd c) + Z.of_nat n <= INT_MAX ->
  readingOrder (snd ptr) = readingOrder (snd c) + Z.of_nat n
  /\ (n <= blocksAbove blocks (readingOrder (snd c)))%nat.
Proof.
  revert c. induction n as [|n IH]; intros c Hm Hlo Hhi.
  - simpl in Hm. injection Hm as <-. split; lia.
  - change (followNext blocks n (getNextBlock blocks (Some c)) = Some ptr) in Hm.
    destruct (getNextBlock blocks (Some c)) as [[j d]|] eqn:Hn.
    + apply getNextBlock_Some in Hn as (Hj & Hd & _). simpl in Hj, Hd.
      rewrite (proj1 (proj2 (wrapInt_succ _))) in Hd
        by (unfold isInt; lia).
      assert (In d blocks) as Hin.
      { apply list_elem_of_In, list_elem_of_lookup. eauto. }
      pose proof (blocksAbove_step blocks (readingOrder (snd c)) d Hin Hd) as Hstep.
      apply IH in Hm as [Hord Hle]; simpl; [|lia|lia].
      simpl in Hord, Hle. rewrite Hd in Hord, Hle. split; lia.
    + rewrite followNext_None in Hm. discriminate.
Qed.

(** The walk visits pairwise distinct list positions as long as it has
    made fewer than [2^32] steps. *)
Lemma followNext_distinct blocks c k k' p p' :
  (0 < k < k')%nat -> Z.of_nat k' <= 4294967296 ->
  followNext blocks k (Some c) = Some p ->
  followNext blocks k' (Some c) = Some p' ->
  fst p <> fst p'.
Proof.
  intros Hk Hbound Hp Hp' Heq.
  destruct k as [|k]; [lia|]. destruct k' as [|k']; [lia|].
  apply followNext_order in Hp as [Hl Ho].
  apply followNext_order in Hp' as [Hl' Ho'].
  rewrite Heq, Hl' in Hl. injection Hl as Hsame.
  rewrite Hsame, Ho in Ho'.
  apply wrapInt_eq in Ho' as [q Hq]. lia.
Qed.

(** X6. Walking the reading order with [getNextBlock] cannot cycle.
    After [n >= 1] steps from a block the walk stands on a block of the
    list whose reading order is [n] higher in [int] arithmetic; as long
    as the walk stays below [INT_MAX] the order is [n] higher and the
    walk has made no more steps than there are blocks of higher reading
    order; a list of fewer than [2^32] blocks is left, for the null
    pointer, after more steps than it has blocks. *)
Theorem followNext_terminates (blocks : list LayoutBlock.t)
    (cur : nat * LayoutBlock.t) (n : nat) :
  (forall ptr, (0 < n)%nat -> followNext blocks n (Some cur) = Some ptr ->
     blocks !! fst ptr = Some (snd ptr)
     /\ readingOrder (snd ptr) = wrapInt (readingOrder (snd cur) + Z.of_nat n))
  /\ (forall ptr, followNext blocks n (Some cur) = Some ptr ->
        INT_MIN <= readingOrder (snd cur) ->
        readingOrder (snd cur) + Z.of_nat n <= INT_MAX ->
        readingOrder (snd ptr) = readingOrder (snd cur) + Z.of_nat n
        /\ (n <= blocksAbove blocks (readingOrder (snd cur)))%nat)
  /\ (Z.of_nat (length blocks) < 4294967296 -> (length blocks < n)%nat ->
      followNext blocks n (Some cur) = None).
Proof.
  split; [|split].
  - intros ptr Hn Hf. destruct n as [|n]; [lia|].
    apply followNext_order. exact Hf.
  - intros ptr. apply followNext_climb.
  - intros Hsmall Hlen.
    destruct (followNext blocks n (Some cur)) as [ptr|] eqn:Hf; [|reflexivity].
    exfalso.
    assert (forall k, (k <= n)%nat -> is_Some (followNext blocks k (Some cur)))
      as Hprefix.
    { intros k Hk.
      destruct (followNext blocks k (Some cur)) as [q|] eqn:Hq; [eauto|].
      replace n with (k + (n - k))%nat in Hf by lia.
      rewrite followNext_add, Hq, followNext_None in Hf. discriminate. }
    set (idx := fun k => match followNext blocks k (Some cur) with
                         | Some q => fst q
                         | None => 0%nat
                         end).
    set (steps := seq 1 (S (length blocks))).
    assert (NoDup (map idx steps)) as Hnodup.
    { apply (NoDup_fmap_2_strong idx); [|apply NoDup_seq].
      intros k k' Hk Hk' Hidx.
      apply list_elem_of_In, in_seq in Hk. apply list_elem_of_In, in_seq in Hk'.
      destruct (Hprefix k ltac:(lia)) as [q Hq].
      destruct (Hprefix k' ltac:(lia)) as [q' Hq'].
      unfold idx in Hidx. rewrite Hq, Hq' in Hidx.
      destruct (Nat.lt_trichotomy k k') as [Hlt | [Heq | Hgt]]; [|exact Heq|].
      - exfalso. apply (followNext_distinct blocks cur k k' q q'); [lia|lia|auto..].
      - exfalso. apply (followNext_distinct blocks cur k' k q' q); [lia|lia|auto..]. }
    assert (incl (map idx steps) (seq 0 (length blocks))) as Hincl.
    { intros x Hx. apply in_map_iff in Hx as (k & <- & Hk).
      apply in_seq in Hk.
      destruct (Hprefix k ltac:(lia)) as [q Hq].
      unfold idx. rewrite Hq.
      destruct k as [|k]; [lia|].
      apply followNext_order in Hq as [Hl _].
      apply lookup_lt_Some in Hl. apply in_seq. lia. }
    pose proof (NoDup_incl_length (proj1 (NoDup_ListNoDup _) Hnodup) Hincl) as Hle.
    rewrite length_map in Hle. unfold steps in Hle.
    rewrite !length_seq in Hle. lia.
Qed.

Lemma followNext_terminates_witness :
  followNext Fixtures.sixBlocks 7 (Some (0%nat, Fixtures.header)) = None.
Proof.
  apply (proj2 (proj2 (followNext_terminates Fixtures.sixBlocks
                         (0%nat, Fixtures.header) 7))).
  - simpl. lia.
  - simpl. lia.
Defined.

(** ** Range and block filter *)

Lemma rangeLoop_sorted (bs : list LayoutBlock.t) k minOrder maxOrder :
  exists ptrs : list (nat * LayoutBlock.t),
    rangeLoop bs k minOrder maxOrder = map Some ptrs
    /\ StronglySorted lt (map fst ptrs)
    /\ Forall (fun ptr => (k <= fst ptr)%nat) ptrs.
Proof.
  revert k. induction bs as [|c rest IH]; intros k; simpl.
  - exists []. repeat split; constructor.
  - destruct (IH (S k)) as (ptrs & Heq & Hsorted & Hge).
    destruct ((minOrder <=? readingOrder c) && (readingOrder c <=? maxOrder)).
    + exists ((k, c) :: ptrs). rewrite Heq. split; [reflexivity|]. split.
      * simpl. constructor; [exact Hsorted|].
        apply Forall_fmap. eapply Forall_impl; [exact Hge|].
        simpl. intros ptr Hptr. lia.
      * constructor; [simpl; lia|].
        eapply Forall_impl; [exact Hge|]. simpl. intros ptr Hptr. lia.
    + exists ptrs. split; [exact Heq|]. split; [exact Hsorted|].
      eapply Forall_impl; [exact Hge|]. simpl. intros ptr Hptr. lia.
Qed.

(** X7. [getBlocksInReadingOrderRange] returns the blocks of the range as
    valid, non-null pointers, each block once, at strictly ascending
    positions: the result follows the iteration order of the list, not
    the reading order. *)
Theorem range_in_iteration_order (blocks : list LayoutBlock.t)
    (minOrder maxOrder : Z) :
  exists ptrs : list (nat * LayoutBlock.t),
    getBlocksInReadingOrderRange blocks minOrder maxOrder = map Some ptrs
    /\ StronglySorted lt (map fst ptrs)
    /\ forall i b, In (i, b) ptrs <->
                   blocks !! i = Some b
                   /\ minOrder <= readingOrder b <= maxOrder.
Proof.
  destruct (rangeLoop_sorted blocks 0 minOrder maxOrder) as (ptrs & Heq & Hs & _).
  exists ptrs. split; [exact Heq|]. split; [exact Hs|].
  intros i b.
  assert (In (i, b) ptrs <->
          In (Some (i, b)) (getBlocksInReadingOrderRange blocks minOrder maxOrder))
    as ->.
  { unfold getBlocksInReadingOrderRange. rewrite Heq, in_map_iff. split.
    - intros H. exists (i, b). auto.
    - intros (ptr & Hptr & Hin). injection Hptr as ->. exact Hin. }
  unfold getBlocksInReadingOrderRange. rewrite rangeLoop_In. split.
  - intros [[j [-> Hj]] Hr]. auto.
  - intros [Hi Hr]. split; [exists i; auto | exact Hr].
Qed.

Lemma isEntityInAnyBlock_nonempty (entityArea : NormalizedRect.t)
    (ptrs : list BlockPtr) :
  ptrs <> [] ->
  (isEntityInAnyBlock entityArea ptrs = true <->
   exists i b, In (Some (i, b)) ptrs /\ containsRect b entityArea = true).
Proof.
  intros Hne. destruct ptrs as [|ptr0 rest]; [contradiction|].
  unfold isEntityInAnyBlock. rewrite existsb_exists. split.
  - intros ([[i b]|] & Hin & Hc); [|discriminate]. exists i, b. auto.
  - intros (i & b & Hin & Hc). exists (Some (i, b)). auto.
Qed.

(** X8. The block filter on a reading-order range: an entity passes
    [isEntityInAnyBlock] over [getBlocksInReadingOrderRange] exactly when
    its centre lies in some block of the range, or when no block of the
    list has its order in the range at all (an empty or inverted range
    lets every entity through). *)
Theorem filter_on_range (blocks : list LayoutBlock.t) (minOrder maxOrder : Z)
    (entityArea : NormalizedRect.t) :
  isEntityInAnyBlock entityArea
    (getBlocksInReadingOrderRange blocks minOrder maxOrder) = true <->
  (forall b, In b blocks -> ~ (minOrder <= readingOrder b <= maxOrder))
  \/ (exists b, In b blocks /\ minOrder <= readingOrder b <= maxOrder
                /\ containsRect b entityArea = true).
Proof.
  assert (forall i b,
             In (Some (i, b)) (getBlocksInReadingOrderRange blocks minOrder maxOrder) <->
             blocks !! i = Some b /\ minOrder <= readingOrder b <= maxOrder) as Hin.
  { intros i b. unfold getBlocksInReadingOrderRange. rewrite rangeLoop_In. split.
    - intros [[j [-> Hj]] Hr]. auto.
    - intros [Hi Hr]. split; [exists i; auto | exact Hr]. }
  destruct (getBlocksInReadingOrderRange blocks minOrder maxOrder)
    as [|ptr0 rest] eqn:Hrange.
  - split; [|reflexivity]. intros _. left. intros b Hb Hr.
    apply list_elem_of_In, list_elem_of_lookup in Hb as [i Hi].
    destruct (proj2 (Hin i b) (conj Hi Hr)).
  - rewrite isEntityInAnyBlock_nonempty by discriminate. split.
    + intros (i & b & Hb & Hc). right. apply Hin in Hb as [Hi Hr].
      exists b. split; [|auto].
      apply list_elem_of_In, list_elem_of_lookup. eauto.
    + intros [Hnone | (b & Hb & Hr & Hc)].
      * exfalso.
        assert (exists i b, ptr0 = Some (i, b)) as (i & b & ->).
        { destruct (rangeLoop_sorted blocks 0 minOrder maxOrder) as (ptrs & Heq & _).
          unfold getBlocksInReadingOrderRange in Hrange. rewrite Heq in Hrange.
          destruct ptrs as [|[i b] ptrs]; [discriminate|].
          injection Hrange as <- _. eauto. }
        destruct (proj1 (Hin i b) (or_introl eq_refl)) as [Hi Hr].
        apply (Hnone b); [|exact Hr].
        apply list_elem_of_In, list_elem_of_lookup. eauto.
      * apply list_elem_of_In, list_elem_of_lookup in Hb as [i Hi].
        exists i, b. split; [|exact Hc]. apply Hin. auto.
Qed.

(** X9. [isEntityInAnyBlock] does not depend on the order of the pointer
    list, and a null pointer in it is skipped; but a list that holds only
    null pointers lets nothing through, unlike the empty list. *)
Theorem isEntityInAnyBlock_order_and_null (entityArea : NormalizedRect.t)
    (ptrs ptrs' : list BlockPtr) :
  (ptrs ≡ₚ ptrs' ->
   isEntityInAnyBlock entityArea ptrs = isEntityInAnyBlock entityArea ptrs')
  /\ (ptrs <> [] ->
      isEntityInAnyBlock entityArea (None :: ptrs)
      = isEntityInAnyBlock entityArea ptrs)
  /\ isEntityInAnyBlock entityArea [None] = false.
Proof.
  split; [|split; [|reflexivity]].
  - intros Hperm. destruct ptrs as [|ptr0 rest].
    + apply Permutation_nil in Hperm. subst ptrs'. reflexivity.
    + assert (ptrs' <> []) as Hne'.
      { intros ->. symmetry in Hperm. apply Permutation_nil in Hperm. discriminate. }
      apply eq_true_iff_eq.
      rewrite !isEntityInAnyBlock_nonempty by (assumption || discriminate).
      split; intros (i & b & Hin & Hc); exists i, b; (split; [|exact Hc]).
      * eapply Permutation_in; [exact Hperm | exact Hin].
      * eapply Permutation_in; [symmetry; exact Hperm | exact Hin].
  - intros Hne. destruct ptrs as [|ptr0 rest]; [contradiction|]. reflexivity.
Qed.

Lemma isEntityInAnyBlock_order_and_null_witness :
  isEntityInAnyBlock (Fixtures.rect 0.1 0.35 0.35 0.45)
    [Some (2%nat, Fixtures.left_bot); Some (3%nat, Fixtures.right_top)]
  = isEntityInAnyBlock (Fixtures.rect 0.1 0.35 0.35 0.45)
      [Some (3%nat, Fixtures.right_top); Some (2%nat, Fixtures.left_bot)].
Proof.
  apply (proj1 (isEntityInAnyBlock_order_and_null (Fixtures.rect 0.1 0.35 0.35 0.45)
                  [Some (2%nat, Fixtures.left_bot); Some (3%nat, Fixtures.right_top)]
                  [Some (3%nat, Fixtures.right_top); Some (2%nat, Fixtures.left_bot)])).
  apply perm_swap.
Defined.

(** ** The assembler, loop by loop *)

Section AssemblerStructure.
Import Assembler.
Variable std_sort :
  (TextEntity.t -> TextEntity.t -> bool) -> list TextEntity.t -> list TextEntity.t.
Variables (blocks : list LayoutBlock.t) (area : RegularAreaRect.t)
          (useIntersects : bool).

(** One turn of the first loop. *)
Let step (entitiesByBlock : QMap.t) (w : TextEntity.t) : QMap.t :=
  if matches area useIntersects w
  then QMap.append (groupKey blocks w) w entitiesByBlock
  else entitiesByBlock.

(** The matched fragments filed under key [k], in page order. *)
Let classOf (words : list TextEntity.t) (k : Z) : list TextEntity.t :=
  List.filter (fun w => groupKey blocks w =? k) (matchedWords words area useIntersects).

Lemma collect_snoc words w :
  collect (words ++ [w]) blocks area useIntersects
  = step (collect words blocks area useIntersects) w.
Proof. unfold collect. rewrite fold_left_app. reflexivity. Qed.

Lemma classOf_snoc words w k :
  classOf (words ++ [w]) k
  = classOf words k
    ++ (if matches area useIntersects w && (groupKey blocks w =? k) then [w] else []).
Proof.
  unfold classOf, matchedWords. rewrite !List.filter_app. f_equal.
  simpl. destruct (matches area useIntersects w); simpl; [|reflexivity].
  destruct (groupKey blocks w =? k); reflexivity.
Qed.

Lemma append_In k e (m : QMap.t) k' es' :
  StronglySorted Z.lt (QMap.keys m) ->
  In (k', es') (QMap.append k e m) <->
  (k' <> k /\ In (k', es') m)
  \/ (k' = k /\ ((exists es, In (k, es) m /\ es' = es ++ [e])
                 \/ (~ In k (QMap.keys m) /\ es' = [e]))).
Proof.
  induction m as [|[k0 es0] rest IH]; simpl; intros Hs.
  - split.
    + intros [Heq | []]. injection Heq as <- <-. right. split; [reflexivity|].
      right. tauto.
    + intros [[_ []] | [-> [(es & [] & _) | [_ ->]]]]. left. reflexivity.
  - apply StronglySorted_inv in Hs as [Hrest Hall].
    rewrite Forall_forall in Hall.
    assert (forall es, In (k0, es) rest -> False) as Hfresh.
    { intros es Hin.
      assert (k0 < k0); [|lia].
      apply Hall, list_elem_of_In, in_map_iff. exists (k0, es). auto. }
    destruct (k <? k0) eqn:Hlt; simpl.
    + apply Z.ltb_lt in Hlt.
      assert (~ In k (QMap.keys rest)) as Hnotin.
      { intros Hin. apply list_elem_of_In, Hall in Hin. lia. }
      split.
      * intros [Heq | [Heq | Hin]].
        -- injection Heq as <- <-. right. split; [reflexivity|]. right.
           split; [|reflexivity]. intros [Heq | Hin]; [lia | contradiction].
        -- injection Heq as <- <-. left. split; [lia | auto].
        -- destruct (Z.eq_dec k' k) as [-> | Hne]; [|left; auto].
           exfalso. apply Hnotin, in_map_iff. exists (k, es'). auto.
      * intros [[Hne [Heq | Hin]] | [-> [(es & [Heq | Hin] & ->) | [_ ->]]]]; auto.
        -- injection Heq as <- <-. lia.
        -- exfalso. apply Hnotin, in_map_iff. exists (k, es). auto.
    + apply Z.ltb_ge in Hlt. destruct (k =? k0) eqn:Heq; simpl.
      * apply Z.eqb_eq in Heq. subst k0. split.
        -- intros [Heq | Hin].
           ++ injection Heq as <- <-. right. split; [reflexivity|]. left.
              exists es0. auto.
           ++ destruct (Z.eq_dec k' k) as [-> | Hne]; [|left; auto].
              destruct (Hfresh _ Hin).
        -- intros [[Hne [Heq | Hin]] | [-> [(es & [Heq | Hin] & ->) | [Hn _]]]]; auto.
           ++ injection Heq as <- <-. contradiction.
           ++ injection Heq as <-. auto.
           ++ destruct (Hfresh _ Hin).
           ++ destruct Hn. auto.
      * apply Z.eqb_neq in Heq. rewrite (IH Hrest). split.
        -- intros [Hhead | [[Hne Hin] | [-> [(es & Hin & ->) | [Hn ->]]]]].
           ++ injection Hhead as <- <-. left. split; [lia | auto].
           ++ left. auto.
           ++ right. split; [reflexivity|]. left. exists es. auto.
           ++ right. split; [reflexivity|]. right. split; [|reflexivity].
              intros [Hk | Hin]; [lia | contradiction].
        -- intros [[Hne [Hhead | Hin]] | [-> [(es & [Hhead | Hin] & ->) | [Hn ->]]]].
           ++ left. exact Hhead.
           ++ right. left. auto.
           ++ injection Hhead as Hk _. lia.
           ++ right. right. split; [reflexivity|]. left. exists es. auto.
           ++ right. right. split; [reflexivity|]. right. split; [|reflexivity].
              intros Hin. apply Hn. auto.
Qed.

Lemma collect_groups words :
  let m := collect words blocks area useIntersects in
  StronglySorted Z.lt (QMap.keys m)
  /\ forall k es, In (k, es) m <-> es = classOf words k /\ es <> [].
Proof.
  induction words as [|w words IH] using rev_ind.
  - simpl. split; [constructor|]. intros k es. split; [intros []|].
    intros [-> Hne]. destruct Hne. reflexivity.
  - destruct IH as [Hsorted IH].
    split; [apply collect_invariant|].
    intros k es. rewrite collect_snoc, classOf_snoc. unfold step.
    destruct (matches area useIntersects w) eqn:Hm; simpl.
    + rewrite (append_In _ _ _ _ _ Hsorted).
      destruct (groupKey blocks w =? k) eqn:Hk.
      * apply Z.eqb_eq in Hk. subst k. split.
        -- intros [[Hne _] | [_ [(es0 & Hin & ->) | [Hn ->]]]].
           ++ destruct Hne. reflexivity.
           ++ apply IH in Hin as [-> _]. split; [reflexivity|].
              intros H. apply app_eq_nil in H as [_ H]. discriminate.
           ++ destruct (classOf words (groupKey blocks w)) as [|e l] eqn:Hclass.
              ** split; [reflexivity | discriminate].
              ** exfalso. apply Hn. apply in_map_iff.
                 exists (groupKey blocks w, e :: l). split; [reflexivity|].
                 apply IH. rewrite Hclass. split; [reflexivity | discriminate].
        -- intros [-> _]. right. split; [reflexivity|].
           destruct (classOf words (groupKey blocks w)) as [|e l] eqn:Hclass.
           ++ right. split; [|reflexivity].
              intros Hin. apply in_map_iff in Hin as ([k0 es0] & Hk0 & Hin).
              simpl in Hk0. subst k0. apply IH in Hin as [-> Hne].
              rewrite Hclass in Hne. destruct Hne. reflexivity.
           ++ left. exists (e :: l). split; [|reflexivity].
              apply IH. rewrite Hclass. split; [reflexivity | discriminate].
      * apply Z.eqb_neq in Hk. rewrite app_nil_r. rewrite <- IH. split.
        -- intros [[_ Hin] | [-> _]]; [exact Hin | destruct Hk; reflexivity].
        -- intros Hin. left. split; [|exact Hin]. intros ->. destruct Hk. reflexivity.
    + rewrite app_nil_r. apply IH.
Qed.

Lemma concatGroups_entities (m : QMap.t) :
  concatGroups (sortGroups std_sort m) = concatTexts (entitiesInOrder std_sort m).
Proof.
  unfold concatGroups, concatTexts, entitiesInOrder, sortGroups.
  generalize EmptyString.
  induction m as [|g rest IH]; intros acc; simpl; [reflexivity|].
  rewrite fold_left_app. apply IH.
Qed.

Lemma append_flat k e (m : QMap.t) :
  flat_map snd (QMap.append k e m) ≡ₚ e :: flat_map snd m.
Proof.
  induction m as [|[k0 es0] rest IH]; simpl; [reflexivity|].
  destruct (k <? k0); simpl; [reflexivity|].
  destruct (k =? k0); simpl.
  - rewrite <- app_assoc. simpl. symmetry. apply Permutation_middle.
  - rewrite IH. symmetry. apply Permutation_middle.
Qed.

Lemma collect_flat words :
  flat_map snd (collect words blocks area useIntersects)
  ≡ₚ matchedWords words area useIntersects.
Proof.
  induction words as [|w words IH] using rev_ind; [reflexivity|].
  rewrite collect_snoc. unfold matchedWords, step. rewrite List.filter_app. simpl.
  destruct (matches area useIntersects w).
  - rewrite append_flat, IH. apply Permutation_cons_append.
  - rewrite app_nil_r. exact IH.
Qed.

Hypothesis std_sort_perm : forall cmp l, std_sort cmp l ≡ₚ l.

Lemma entities_flat (m : QMap.t) :
  entitiesInOrder std_sort m ≡ₚ flat_map snd m.
Proof.
  unfold entitiesInOrder. induction m as [|g rest IH]; simpl; [reflexivity|].
  rewrite IH, std_sort_perm. reflexivity.
Qed.

Lemma entities_sorted (m : QMap.t) :
  StronglySorted Z.lt (QMap.keys m) ->
  (forall k es e, In (k, es) m -> In e es -> groupKey blocks e = k) ->
  StronglySorted Z.le (map (groupKey blocks) (entitiesInOrder std_sort m))
  /\ forall e, In e (entitiesInOrder std_sort m) ->
       In (groupKey blocks e) (QMap.keys m).
Proof.
  unfold entitiesInOrder. induction m as [|[k es] rest IH]; simpl; intros Hs Hkey.
  - split; [constructor | tauto].
  - apply StronglySorted_inv in Hs as [Hrest Hall]. rewrite Forall_forall in Hall.
    destruct (IH Hrest) as [IHs IHin].
    { intros k0 es0 e Hin He. eapply Hkey; [right; exact Hin | exact He]. }
    assert (forall e, In e (std_sort lessThan es) -> groupKey blocks e = k) as Hhead.
    { intros e He. apply (Hkey k es e); [left; reflexivity|].
      eapply Permutation_in; [apply std_sort_perm | exact He]. }
    split.
    + rewrite map_app. apply StronglySorted_app_2; [| |exact IHs].
      * intros x1 x2 Hx1 Hx2.
        apply list_elem_of_In, in_map_iff in Hx1 as (e1 & <- & He1).
        apply list_elem_of_In, in_map_iff in Hx2 as (e2 & <- & He2).
        rewrite (Hhead e1 He1).
        specialize (Hall _ (proj2 (list_elem_of_In _ _) (IHin e2 He2))). lia.
      * induction (std_sort lessThan es) as [|e l IHl]; simpl; [constructor|].
        constructor.
        -- apply IHl. intros e0 He0. apply Hhead. right. exact He0.
        -- apply Forall_forall. intros x Hx.
           apply list_elem_of_In, in_map_iff in Hx as (e0 & <- & He0).
           rewrite (Hhead e (or_introl eq_refl)), (Hhead e0 (or_intror He0)). lia.
    + intros e He. apply in_app_or in He as [He | He].
      * left. symmetry. apply Hhead, He.
      * right. apply IHin, He.
Qed.
End AssemblerStructure.

Lemma string_length_append (s1 s2 : string) :
  String.length (String.append s1 s2) = (String.length s1 + String.length s2)%nat.
Proof. induction s1 as [|c s1 IH]; simpl; [reflexivity | rewrite IH; reflexivity]. Qed.

Lemma concatTexts_length (l : list TextEntity.t) :
  String.length (concatTexts l)
  = list_sum (map (fun w => String.length (TextEntity.text w)) l).
Proof.
  unfold concatTexts.
  assert (forall acc,
             String.length
               (fold_left (fun a entity => String.append a (TextEntity.text entity)) l acc)
             = (String.length acc
                + list_sum (map (fun w => String.length (TextEntity.text w)) l))%nat)
    as H.
  { induction l as [|e l IH]; intros acc; simpl; [lia|].
    rewrite IH, string_length_append. lia. }
  apply (H EmptyString).
Qed.

Lemma collect_matched words blocks area useIntersects :
  Assembler.collect (matchedWords words area useIntersects) blocks area useIntersects
  = Assembler.collect words blocks area useIntersects.
Proof.
  unfold Assembler.collect, matchedWords. generalize (@nil (Z * list TextEntity.t)).
  induction words as [|w words IH]; intros acc; simpl; [reflexivity|].
  destruct (Assembler.matches area useIntersects w) eqn:Hm; simpl.
  - rewrite Hm. apply IH.
  - apply IH.
Qed.

(** X10. What [extractTextInReadingOrder] computes, without any
    assumption on [std::sort]: the matched fragments are split by key
    into non-empty groups, each holding the fragments of its key in page
    order; the groups are taken by strictly ascending key, each group is
    handed to [std::sort], and the texts are appended. *)
Theorem extract_by_groups
    (std_sort : (TextEntity.t -> TextEntity.t -> bool) ->
                list TextEntity.t -> list TextEntity.t)
    (words : list TextEntity.t) (blocks : list LayoutBlock.t)
    (area : RegularAreaRect.t) (useIntersects : bool) :
  exists groups : list (Z * list TextEntity.t),
    StronglySorted Z.lt (map fst groups)
    /\ (forall k es,
           In (k, es) groups <->
           es = List.filter (fun w => Assembler.groupKey blocks w =? k)
                  (matchedWords words area useIntersects)
           /\ es <> [])
    /\ Assembler.extractTextInReadingOrder std_sort words blocks area useIntersects
       = concatTexts
           (flat_map (fun group => std_sort Assembler.lessThan (snd group)) groups).
Proof.
  exists (Assembler.collect words blocks area useIntersects).
  destruct (collect_groups blocks area useIntersects words) as [Hs Hin].
  split; [exact Hs|]. split; [exact Hin|].
  unfold Assembler.extractTextInReadingOrder. apply concatGroups_entities.
Qed.

(** X11. With a [std::sort] that rearranges its range, the output is the
    texts of the matched fragments, each fragment exactly once, in
    non-decreasing order of group key; its length is the sum of the
    lengths of the matched texts (no separator is added and nothing is
    dropped). *)
Theorem extract_no_loss
    (std_sort : (TextEntity.t -> TextEntity.t -> bool) ->
                list TextEntity.t -> list TextEntity.t)
    (words : list TextEntity.t) (blocks : list LayoutBlock.t)
    (area : RegularAreaRect.t) (useIntersects : bool) :
  (forall cmp l, std_sort cmp l ≡ₚ l) ->
  exists entities : list TextEntity.t,
    Assembler.extractTextInReadingOrder std_sort words blocks area useIntersects
    = concatTexts entities
    /\ entities ≡ₚ matchedWords words area useIntersects
    /\ StronglySorted Z.le (map (Assembler.groupKey blocks) entities)
    /\ String.length
         (Assembler.extractTextInReadingOrder std_sort words blocks area useIntersects)
       = list_sum (map (fun w => String.length (TextEntity.text w))
                       (matchedWords words area useIntersects)).
Proof.
  intros Hperm.
  set (m := Assembler.collect words blocks area useIntersects).
  assert (entitiesInOrder std_sort m ≡ₚ matchedWords words area useIntersects)
    as Hent.
  { rewrite (entities_flat std_sort Hperm). apply collect_flat. }
  assert (Assembler.extractTextInReadingOrder std_sort words blocks area useIntersects
          = concatTexts (entitiesInOrder std_sort m)) as Hout.
  { unfold Assembler.extractTextInReadingOrder. apply concatGroups_entities. }
  exists (entitiesInOrder std_sort m).
  split; [exact Hout|]. split; [exact Hent|]. split.
  - destruct (collect_groups blocks area useIntersects words) as [Hs Hin].
    apply (entities_sorted std_sort blocks Hperm m Hs).
    intros k es e Hg He. apply Hin in Hg as [-> _].
    apply filter_In in He as [_ He]. apply Z.eqb_eq, He.
  - rewrite Hout, concatTexts_length.
    apply Permutation_list_sum, Permutation_map, Hent.
Qed.

Lemma extract_no_loss_witness :
  exists entities : list TextEntity.t,
    Assembler.extractTextInReadingOrder Assembler.insertionSort
      Fixtures.sixWords Fixtures.sixBlocks [Fixtures.rect 0 0 1 1] true
    = concatTexts entities
    /\ entities ≡ₚ matchedWords Fixtures.sixWords [Fixtures.rect 0 0 1 1] true
    /\ StronglySorted Z.le (map (Assembler.groupKey Fixtures.sixBlocks) entities)
    /\ String.length
         (Assembler.extractTextInReadingOrder Assembler.insertionSort
            Fixtures.sixWords Fixtures.sixBlocks [Fixtures.rect 0 0 1 1] true)
       = list_sum (map (fun w => String.length (TextEntity.text w))
                       (matchedWords Fixtures.sixWords [Fixtures.rect 0 0 1 1] true)).
Proof.
  exact (extract_no_loss Assembler.insertionSort Fixtures.sixWords Fixtures.sixBlocks
           [Fixtures.rect 0 0 1 1] true insertionSort_perm).
Defined.

Lemma matchedWords_nil words area useIntersects :
  (forall w, In w words -> Assembler.matches area useIntersects w = false) ->
  matchedWords words area useIntersects = [].
Proof.
  unfold matchedWords. induction words as [|w l IH]; intros Hno; simpl; [reflexivity|].
  rewrite (Hno w (or_introl eq_refl)). apply IH.
  intros w' Hw'. apply Hno. right. exact Hw'.
Qed.

(** X12. Only the matched fragments count: running the assembler on the
    whole page gives the same text as running it on the fragments that
    match the selection area.  When no fragment matches (an empty page,
    an empty area) the text is empty. *)
Theorem extract_only_matched
    (std_sort : (TextEntity.t -> TextEntity.t -> bool) ->
                list TextEntity.t -> list TextEntity.t)
    (words : list TextEntity.t) (blocks : list LayoutBlock.t)
    (area : RegularAreaRect.t) (useIntersects : bool) :
  Assembler.extractTextInReadingOrder std_sort words blocks area useIntersects
  = Assembler.extractTextInReadingOrder std_sort
      (matchedWords words area useIntersects) blocks area useIntersects
  /\ ((forall w, In w words -> Assembler.matches area useIntersects w = false) ->
      Assembler.extractTextInReadingOrder std_sort words blocks area useIntersects
      = EmptyString)
  /\ Assembler.extractTextInReadingOrder std_sort words blocks [] useIntersects
     = EmptyString.
Proof.
  assert (Assembler.extractTextInReadingOrder std_sort words blocks area useIntersects
          = Assembler.extractTextInReadingOrder std_sort
              (matchedWords words area useIntersects) blocks area useIntersects) as Heq.
  { unfold Assembler.extractTextInReadingOrder. rewrite collect_matched. reflexivity. }
  assert (forall a,
             (forall w, In w words -> Assembler.matches a useIntersects w = false) ->
             Assembler.extractTextInReadingOrder std_sort words blocks a useIntersects
             = EmptyString) as Hnone.
  { intros a Hno. unfold Assembler.extractTextInReadingOrder.
    rewrite <- collect_matched.
    replace (matchedWords words a useIntersects) with (@nil TextEntity.t);
      [reflexivity|].
    symmetry. apply matchedWords_nil, Hno. }
  split; [exact Heq|]. split; [apply Hnone|].
  apply Hnone. intros w _. destruct useIntersects; reflexivity.
Qed.

Lemma extract_only_matched_witness :
  Assembler.extractTextInReadingOrder Assembler.insertionSort
    Fixtures.sixWords Fixtures.sixBlocks [Fixtures.rect 0 0.8 1 0.9] true
  = EmptyString.
Proof.
  apply (proj1 (proj2 (extract_only_matched Assembler.insertionSort
                         Fixtures.sixWords Fixtures.sixBlocks
                         [Fixtures.rect 0 0.8 1 0.9] true))).
  intros w Hw. simpl in Hw.
  destruct Hw as [<-|[<-|[<-|[<-|[<-|[<-|[]]]]]]]; reflexivity.
Defined.

Lemma filter_all (A : Type) (f : A -> bool) (l : list A) :
  (forall x, In x l -> f x = true) -> List.filter f l = l.
Proof.
  induction l as [|x l IH]; intros H; simpl; [reflexivity|].
  rewrite (H x (or_introl eq_refl)). f_equal. apply IH.
  intros y Hy. apply H. right. exact Hy.
Qed.

(** X13. When all matched fragments are filed under one key, the output
    is the texts of the matched fragments, taken in page order and
    rearranged by one call of [std::sort] with the comparator.  This is
    the case of a page without blocks, where every fragment gets the
    sentinel: block order then plays no part. *)
Theorem extract_single_group
    (std_sort : (TextEntity.t -> TextEntity.t -> bool) ->
                list TextEntity.t -> list TextEntity.t)
    (words : list TextEntity.t) (blocks : list LayoutBlock.t)
    (area : RegularAreaRect.t) (useIntersects : bool) (k : Z) :
  matchedWords words area useIntersects <> [] ->
  (blocks = [] \/
   forall w, In w (matchedWords words area useIntersects) ->
             Assembler.groupKey blocks w = k) ->
  Assembler.extractTextInReadingOrder std_sort words blocks area useIntersects
  = concatTexts (std_sort Assembler.lessThan (matchedWords words area useIntersects)).
Proof.
  intros Hne Hkey.
  assert (exists k0, forall w, In w (matchedWords words area useIntersects) ->
                               Assembler.groupKey blocks w = k0) as [k0 Hk0].
  { destruct Hkey as [-> | Hkey]; [|eauto].
    exists Assembler.sentinelOrder. intros w _. reflexivity. }
  clear Hkey.
  set (matched := matchedWords words area useIntersects) in *.
  destruct (collect_groups blocks area useIntersects words) as [Hs Hin].
  fold matched in Hin.
  assert (List.filter (fun w => Assembler.groupKey blocks w =? k0) matched = matched)
    as Hclass.
  { apply filter_all. intros w Hw. apply Z.eqb_eq, Hk0, Hw. }
  assert (forall k' es, In (k', es) (Assembler.collect words blocks area useIntersects) ->
                        (k', es) = (k0, matched)) as Hall.
  { intros k' es Hg. apply Hin in Hg as [Hes Hnonempty].
    destruct es as [|e l]; [destruct Hnonempty; reflexivity|].
    assert (In e (List.filter (fun w => Assembler.groupKey blocks w =? k') matched))
      as He by (rewrite <- Hes; left; reflexivity).
    apply filter_In in He as [Hm He]. apply Z.eqb_eq in He.
    rewrite (Hk0 e Hm) in He. subst k'. rewrite Hes, Hclass. reflexivity. }
  assert (Assembler.collect words blocks area useIntersects = [(k0, matched)]) as Hm.
  { destruct (Assembler.collect words blocks area useIntersects)
      as [|g1 [|g2 rest]] eqn:Hc.
    - exfalso. apply (proj2 (Hin k0 matched)). rewrite Hclass. auto.
    - destruct g1 as [k1 es1].
      rewrite (Hall k1 es1 (or_introl eq_refl)). reflexivity.
    - exfalso.
      pose proof (Hall (fst g1) (snd g1)) as H1.
      pose proof (Hall (fst g2) (snd g2)) as H2.
      destruct g1 as [k1 es1], g2 as [k2 es2]. simpl in *.
      specialize (H1 (or_introl eq_refl)).
      specialize (H2 (or_intror (or_introl eq_refl))).
      injection H1 as -> _. injection H2 as -> _.
      apply StronglySorted_inv in Hs as [_ Hlt].
      apply Forall_inv in Hlt. lia. }
  unfold Assembler.extractTextInReadingOrder.
  rewrite concatGroups_entities, Hm. unfold entitiesInOrder. simpl.
  rewrite app_nil_r. reflexivity.
Qed.

Lemma extract_single_group_witness :
  Assembler.extractTextInReadingOrder Assembler.insertionSort
    Fixtures.lineWords [] [Fixtures.rect 0 0 1 1] true
  = concatTexts (Assembler.insertionSort Assembler.lessThan
                   (matchedWords Fixtures.lineWords [Fixtures.rect 0 0 1 1] true)).
Proof.
  apply (extract_single_group Assembler.insertionSort Fixtures.lineWords []
           [Fixtures.rect 0 0 1 1] true 0).
  - vm_compute. discriminate.
  - left. reflexivity.
Defined.

(** X14. The key of a matched fragment is never negative.  It is the
    reading order of the owning block when that order is non-negative,
    and the sentinel 999999 otherwise: when the fragment is in no block,
    and also when its owning block has a negative reading order (a later
    containing block is not consulted). *)
Theorem groupKey_cases (blocks : list LayoutBlock.t) (w : TextEntity.t) :
  0 <= Assembler.groupKey blocks w
  /\ (owningBlock blocks (TextEntity.area w) = None ->
      Assembler.groupKey blocks w = Assembler.sentinelOrder)
  /\ (forall i b,
         owningBlock blocks (TextEntity.area w) = Some (i, b) ->
         Assembler.groupKey blocks w
         = if 0 <=? readingOrder b then readingOrder b else Assembler.sentinelOrder).
Proof.
  unfold Assembler.groupKey. rewrite blockOrderOf_owner.
  destruct (owningBlock blocks (TextEntity.area w)) as [[i b]|].
  - split.
    + destruct (0 <=? readingOrder b) eqn:H; [apply Z.leb_le, H|].
      unfold Assembler.sentinelOrder. lia.
    + split; [discriminate|]. intros j c Heq. injection Heq as <- <-. reflexivity.
  - split; [simpl; unfold Assembler.sentinelOrder; lia|].
    split; [reflexivity | discriminate].
Qed.

Lemma groupKey_cases_witness :
  Assembler.groupKey Fixtures.columnsWithHeader
    (Fixtures.word "Title" (Fixtures.rect 0.1 0.03 0.9 0.07))
  = if 0 <=? readingOrder Fixtures.page_header
    then readingOrder Fixtures.page_header else Assembler.sentinelOrder.
Proof.
  exact (proj2 (proj2 (groupKey_cases Fixtures.columnsWithHeader
                         (Fixtures.word "Title" (Fixtures.rect 0.1 0.03 0.9 0.07))))
           2%nat Fixtures.page_header eq_refl).
Defined.

(** X15. The comparator given to [std::sort] is irreflexive and
    asymmetric, but it is not transitive, so it is not a strict weak
    ordering: fragments within the tolerance of their neighbours can
    form a cycle. *)
Theorem lessThan_not_strict_weak :
  (forall a, Assembler.lessThan a a = false)
  /\ (forall a b, Assembler.lessThan a b = true -> Assembler.lessThan b a = false)
  /\ ~ (forall a b c,
           Assembler.lessThan a b = true -> Assembler.lessThan b c = true ->
           Assembler.lessThan a c = true).
Proof.
  split; [|split].
  - intros a. apply not_true_iff_false. intros H.
    apply lessThan_iff in H. destruct H as [[_ H] | [_ H]]; lra.
  - intros a b Hab. apply not_true_iff_false. intros Hba.
    apply lessThan_iff in Hab. apply lessThan_iff in Hba.
    rewrite (Qabs_Qminus (Assembler.centerY (TextEntity.area b))) in Hba.
    destruct Hab as [[Hfar Hlt] | [Hclose Hlt]],
             Hba as [[Hfar' Hlt'] | [Hclose' Hlt']]; lra.
  - intros Htrans.
    pose proof lessThan_cycle as (Hab & Hbc & Hca). cbv zeta in Hab, Hbc, Hca.
    pose proof (Htrans _ _ _ Hab Hbc) as Hac.
    vm_compute in Hac. discriminate.
Qed.

Lemma lessThan_not_strict_weak_witness :
  Assembler.lessThan Fixtures.wL2 Fixtures.wL1 = false.
Proof.
  exact (proj1 (proj2 lessThan_not_strict_weak) Fixtures.wL1 Fixtures.wL2 eq_refl).
Defined.

(** ** Locator and range together *)

Lemma findBlockForCursor_lookup blocks p i b :
  findBlockForCursor blocks p = Some (i, b) -> blocks !! i = Some b.
Proof.
  intros H.
  destruct (findBlockContaining blocks p) as [d|] eqn:Hd.
  - unfold findBlockForCursor in H. rewrite Hd in H. injection H as ->.
    apply findBlockContaining_Some in Hd. tauto.
  - rewrite (findBlockForCursor_outside _ _ Hd) in H.
    destruct (passedLoop p blocks 0 None (-1)) as [best|] eqn:Hbest.
    + destruct (getNextBlock blocks (Some best)) as [nxt|] eqn:Hn.
      * injection H as ->. apply getNextBlock_Some in Hn. tauto.
      * injection H as ->. apply passedLoop_Some in Hbest as [Hi _]. exact Hi.
    + apply firstLoop_Some in H as [Hi _]. exact Hi.
Qed.

(** X16. The blocks to which two cursors resolve both belong to the
    reading-order range spanned by their orders.  That range is therefore
    never empty, and [isEntityInAnyBlock] over it is a real filter: an
    entity passes exactly when its centre lies in a block of the range. *)
Theorem resolved_blocks_in_range (blocks : list LayoutBlock.t)
    (p q : NormalizedPoint.t) (i j : nat) (b c : LayoutBlock.t) :
  findBlockForCursor blocks p = Some (i, b) ->
  findBlockForCursor blocks q = Some (j, c) ->
  let minOrder := Z.min (readingOrder b) (readingOrder c) in
  let maxOrder := Z.max (readingOrder b) (readingOrder c) in
  let range := getBlocksInReadingOrderRange blocks minOrder maxOrder in
  In (Some (i, b)) range /\ In (Some (j, c)) range
  /\ forall entityArea,
       isEntityInAnyBlock entityArea range = true <->
       exists d, In d blocks /\ minOrder <= readingOrder d <= maxOrder
                 /\ containsRect d entityArea = true.
Proof.
  intros Hp Hq minOrder maxOrder range.
  apply findBlockForCursor_lookup in Hp. apply findBlockForCursor_lookup in Hq.
  assert (forall k d, In (Some (k, d)) range <->
                      blocks !! k = Some d /\ minOrder <= readingOrder d <= maxOrder)
    as Hin.
  { intros k d. subst range. unfold getBlocksInReadingOrderRange.
    rewrite rangeLoop_In. split.
    - intros [[n [-> Hn]] Hr]. auto.
    - intros [Hk Hr]. split; [exists k; auto | exact Hr]. }
  assert (In (Some (i, b)) range) as Hb.
  { apply Hin. split; [exact Hp|]. subst minOrder maxOrder. lia. }
  split; [exact Hb|]. split.
  { apply Hin. split; [exact Hq|]. subst minOrder maxOrder. lia. }
  intros entityArea.
  assert (range <> []) as Hne by (intros Heq; rewrite Heq in Hb; destruct Hb).
  rewrite (isEntityInAnyBlock_nonempty entityArea range Hne). split.
  - intros (k & d & Hd & Hc). apply Hin in Hd as [Hk Hr].
    exists d. split; [|auto]. apply list_elem_of_In, list_elem_of_lookup. eauto.
  - intros (d & Hd & Hr & Hc).
    apply list_elem_of_In, list_elem_of_lookup in Hd as [k Hk].
    exists k, d. split; [|exact Hc]. apply Hin. auto.
Qed.

Lemma resolved_blocks_in_range_witness :
  In (Some (2%nat, Fixtures.left_bot))
     (getBlocksInReadingOrderRange Fixtures.sixBlocks 2 5).
Proof.
  exact (proj1 (resolved_blocks_in_range Fixtures.sixBlocks
                  (Fixtures.point 0.1 0.35) (Fixtures.point 0.9 0.65)
                  2 5 Fixtures.left_bot Fixtures.footer eq_refl eq_refl)).
Defined.
